(** * Physics-simulation suite: the per-step engines and the line utility

    A shallow embedding of the numeric cores of

    - [elastic_collision.py]   (class [ElasticCollision]),
    - [atwood_machine.py]      (class [AtwoodMachine]),
    - [rigid_body_rotation.py] (class [RigidBodyRotation], the engine the
      home screen launches),
    - [free_fall_simulation.py] (a second [RigidBodyRotation] class, the
      sibling implementation of the rotation engine),
    - [snap_line.py]           (class [LineDrawer]),
    - [SHO.py]                 (method [submit] of [SHMSimulator]),
    - [projectile_motion.py]   (the height formulas of
      [update_trajectory]),
    - [home_screen.py]         (the grid placement of [create_buttons]).

    Numbers.  The Python code computes with IEEE doubles.  Every double is a
    rational number, and the properties below are the exact-arithmetic ones,
    so a Python float is modelled as a [Q] and [+ - * /] by the field
    operations of [Q], compared with [Qle_bool] and stated up to [==].
    Rounding is not modelled, and what needs a square root, a sine or a
    cosine is left out.  Widgets, figures and drawing calls are left out;
    the attributes a method reads or writes are the fields of the state
    records. *)

From Stdlib Require Import QArith Qabs Qround Qminmax Lqa Lia List Permutation.
From Stdlib Require Import Sorted.
From stdpp Require Import gmap strings.
Import ListNotations.

Local Open Scope Q_scope.

(** ** Shared helpers *)

(** Python's [a <= b] and [a < b] on floats, as booleans. *)
Definition Qleb (a b : Q) : bool := Qle_bool a b.
Definition Qltb (a b : Q) : bool := negb (Qle_bool b a).

(** [f] applied [n] times, the timer calling a step method again and again. *)
Fixpoint iter {A : Type} (n : nat) (f : A -> A) (a : A) : A :=
  match n with
  | O => a
  | S k => iter k f (f a)
  end.

(** ** elastic_collision.py *)

Module ElasticCollision.

(** The attributes [setup_parameters] fixes once and the sliders may change
    ([m1], [m2], [v1], [v2]). *)
Record params := mkParams {
  m1 : Q; m2 : Q; v1 : Q; v2 : Q;
  wall_left : Q; wall_right : Q;
  block_width : Q;
  x1_init : Q; x2_init : Q;
  dt : Q; t_max : Q; frame_skip : nat;
  collision_cooldown : Q
}.

(** The attributes [reset_simulation] creates and [update_positions] mutates,
    with the pause flag of the widget layer. *)
Record state := mkState {
  x1 : Q; x2 : Q;
  current_v1 : Q; current_v2 : Q;
  t : Q;
  last_collision_time : Q;
  is_paused : bool
}.

(** [setup_parameters], the values of lines 16-36 and the cooldown of
    [reset_simulation]. *)
Definition setup_parameters : params :=
  {| m1 := 1; m2 := 2; v1 := 2; v2 := -(1);
     wall_left := -(5); wall_right := 5;
     block_width := 1 # 2;
     x1_init := -(2); x2_init := 2;
     dt := 1 # 100; t_max := 20; frame_skip := 2;
     collision_cooldown := 1 # 10 |}.

(** [reset_simulation]; the pause flag is set by the widget layer and is
    passed through. *)
Definition reset_simulation (p : params) (paused : bool) : state :=
  {| x1 := x1_init p; x2 := x2_init p;
     current_v1 := v1 p; current_v2 := v2 p;
     t := 0; last_collision_time := -(1);
     is_paused := paused |}.

(** Lines 60-62: the explicit Euler advance. *)
Definition advance (p : params) (s : state) : state :=
  {| x1 := x1 s + current_v1 s * dt p;
     x2 := x2 s + current_v2 s * dt p;
     current_v1 := current_v1 s; current_v2 := current_v2 s;
     t := t s + dt p;
     last_collision_time := last_collision_time s;
     is_paused := is_paused s |}.

(** Lines 65-70: the wall check of block 1 ([if] / [elif]). *)
Definition wall_block1 (p : params) (s : state) : state :=
  if Qleb (x1 s - block_width p / 2) (wall_left p) then
    {| x1 := wall_left p + block_width p / 2; x2 := x2 s;
       current_v1 := - current_v1 s; current_v2 := current_v2 s;
       t := t s; last_collision_time := last_collision_time s;
       is_paused := is_paused s |}
  else if Qleb (wall_right p) (x1 s + block_width p / 2) then
    {| x1 := wall_right p - block_width p / 2; x2 := x2 s;
       current_v1 := - current_v1 s; current_v2 := current_v2 s;
       t := t s; last_collision_time := last_collision_time s;
       is_paused := is_paused s |}
  else s.

(** Lines 73-78: the wall check of block 2. *)
Definition wall_block2 (p : params) (s : state) : state :=
  if Qleb (x2 s - block_width p / 2) (wall_left p) then
    {| x1 := x1 s; x2 := wall_left p + block_width p / 2;
       current_v1 := current_v1 s; current_v2 := - current_v2 s;
       t := t s; last_collision_time := last_collision_time s;
       is_paused := is_paused s |}
  else if Qleb (wall_right p) (x2 s + block_width p / 2) then
    {| x1 := x1 s; x2 := wall_right p - block_width p / 2;
       current_v1 := current_v1 s; current_v2 := - current_v2 s;
       t := t s; last_collision_time := last_collision_time s;
       is_paused := is_paused s |}
  else s.

(** The guard of lines 82-90: the blocks touch, the cooldown has passed and
    they move toward each other. *)
Definition collision_triggered (p : params) (s : state) : bool :=
  let distance := Qabs (x1 s - x2 s) in
  Qleb distance (block_width p)
  && Qltb (collision_cooldown p) (t s - last_collision_time s)
  && (let relative_velocity := current_v1 s - current_v2 s in
      (Qltb (x1 s) (x2 s) && Qltb 0 relative_velocity)
      || (Qltb (x2 s) (x1 s) && Qltb relative_velocity 0)).

(** Lines 101-108: both new velocities are computed from the velocities the
    blocks have when the collision is detected, before either is stored. *)
Definition v1_new (p : params) (s : state) : Q :=
  ((m1 p - m2 p) * current_v1 s + 2 * m2 p * current_v2 s) / (m1 p + m2 p).
Definition v2_new (p : params) (s : state) : Q :=
  ((m2 p - m1 p) * current_v2 s + 2 * m1 p * current_v1 s) / (m1 p + m2 p).

(** Lines 81-112: the block-block collision. *)
Definition block_collision (p : params) (s : state) : state :=
  if collision_triggered p s then
    let distance := Qabs (x1 s - x2 s) in
    let overlap := block_width p - distance in
    {| x1 := if Qltb (x1 s) (x2 s) then x1 s - overlap / 2
             else x1 s + overlap / 2;
       x2 := if Qltb (x1 s) (x2 s) then x2 s + overlap / 2
             else x2 s - overlap / 2;
       current_v1 := v1_new p s;
       current_v2 := v2_new p s;
       t := t s;
       last_collision_time := t s;
       is_paused := is_paused s |}
  else s.

(** [update_positions]: one physics micro-step. *)
Definition update_positions (p : params) (s : state) : state :=
  block_collision p (wall_block2 p (wall_block1 p (advance p s))).

(** The physics part of [update_animation] (lines 229-232): no test on
    [t_max]. *)
Definition update_animation (p : params) (s : state) : state :=
  if negb (is_paused s) then iter (frame_skip p) (update_positions p) s
  else s.

(** No wall is involved in a micro-step when, after the advance, both blocks
    are strictly between the walls. *)
Definition inside (p : params) (x : Q) : Prop :=
  wall_left p < x - block_width p / 2 /\ x + block_width p / 2 < wall_right p.

Definition no_wall_hit (p : params) (s : state) : Prop :=
  inside p (x1 (advance p s)) /\ inside p (x2 (advance p s)).

(** The wall-containment predicate of a state. *)
Definition contained (p : params) (s : state) : Prop :=
  (wall_left p <= x1 s - block_width p / 2
   /\ x1 s + block_width p / 2 <= wall_right p)
  /\ (wall_left p <= x2 s - block_width p / 2
      /\ x2 s + block_width p / 2 <= wall_right p).

(** The same test as a boolean. *)
Definition containedb (p : params) (s : state) : bool :=
  (Qleb (wall_left p) (x1 s - block_width p / 2)
   && Qleb (x1 s + block_width p / 2) (wall_right p))
  && (Qleb (wall_left p) (x2 s - block_width p / 2)
      && Qleb (x2 s + block_width p / 2) (wall_right p)).

Definition momentum (p : params) (s : state) : Q :=
  m1 p * current_v1 s + m2 p * current_v2 s.

(** The kinetic energy [update_animation] prints (line 243). *)
Definition kinetic_energy (p : params) (s : state) : Q :=
  (5 # 10) * m1 p * current_v1 s ^ 2 + (5 # 10) * m2 p * current_v2 s ^ 2.

(** The state in which the block-block test of a micro-step is made: after
    the advance and the two wall checks. *)
Definition at_detection (p : params) (s : state) : state :=
  wall_block2 p (wall_block1 p (advance p s)).

(** [update_params]: the four slider values replace the masses and the
    initial velocities. *)
Definition update_params (p : params) (a b c d : Q) : params :=
  {| m1 := a; m2 := b; v1 := c; v2 := d;
     wall_left := wall_left p; wall_right := wall_right p;
     block_width := block_width p;
     x1_init := x1_init p; x2_init := x2_init p;
     dt := dt p; t_max := t_max p; frame_skip := frame_skip p;
     collision_cooldown := collision_cooldown p |}.

(** The engine after [n] micro-steps from a fresh start. *)
Definition run (p : params) (n : nat) : state :=
  iter n (update_positions p) (reset_simulation p false).

(** Two states that agree up to the representation of their rationals. *)
Definition state_eq (a b : state) : Prop :=
  x1 a == x1 b /\ x2 a == x2 b
  /\ current_v1 a == current_v1 b /\ current_v2 a == current_v2 b
  /\ t a == t b /\ last_collision_time a == last_collision_time b
  /\ is_paused a = is_paused b.

(** The same state with every fraction in lowest terms, and the run that
    reduces after each micro-step: it denotes the same numbers as [run] and
    is the one that is evaluated. *)
Definition normalize (s : state) : state :=
  {| x1 := Qred (x1 s); x2 := Qred (x2 s);
     current_v1 := Qred (current_v1 s); current_v2 := Qred (current_v2 s);
     t := Qred (t s);
     last_collision_time := Qred (last_collision_time s);
     is_paused := is_paused s |}.

Definition run_reduced (p : params) (n : nat) : state :=
  iter n (fun s => normalize (update_positions p s))
    (reset_simulation p false).

(** The head-on scenario is the default set-up: the blocks first meet in
    micro-step 117. *)
Definition before_head_on : state := run setup_parameters 116.

(** Sliders at [m1 = 1], [m2 = 2], [v1 = -1.9], [v2 = -4.3]: block 2 chases
    block 1 into the left wall. *)
Definition chase_parameters : params :=
  update_params setup_parameters 1 2 (-(19 # 10)) (-(43 # 10)).

End ElasticCollision.

(** ** History lists

    Every engine appends one sample per step to parallel Python lists and
    pops the oldest sample of each once [time_history] holds more than 500
    entries. *)

Definition append (h : list Q) (a : Q) : list Q := h ++ [a].

(** [h.pop(0)], guarded by the length of the time history [th]. *)
Definition pop_if_long (th h : list Q) : list Q :=
  if Nat.ltb 500 (length th) then tl h else h.

(** ** atwood_machine.py *)

Module AtwoodMachine.

Record params := mkParams {
  dt : Q; t_max : Q;
  m1 : Q; m2 : Q; g : Q;
  string_length : Q;
  y1_0 : Q; y2_0 : Q
}.

Record state := mkState {
  current_time : Q;
  y1 : Q; y2 : Q;
  v1 : Q; v2 : Q;
  acceleration : Q; tension : Q;
  time_history : list Q;
  y1_history : list Q; y2_history : list Q;
  v1_history : list Q; v2_history : list Q;
  paused : bool
}.

Definition setup_parameters : params :=
  {| dt := 2 # 100; t_max := 10;
     m1 := 1; m2 := 2; g := 981 # 100;
     string_length := 4;
     y1_0 := 3 # 2; y2_0 := -(3 # 2) |}.

(** [reset_simulation]; the pause flag belongs to the widget layer and is
    passed through. *)
Definition reset_simulation (p : params) (is_paused : bool) : state :=
  {| current_time := 0;
     y1 := y1_0 p; y2 := y2_0 p;
     v1 := 0; v2 := 0;
     acceleration := (m2 p - m1 p) * g p / (m1 p + m2 p);
     tension := 2 * m1 p * m2 p * g p / (m1 p + m2 p);
     time_history := []; y1_history := []; y2_history := [];
     v1_history := []; v2_history := [];
     paused := is_paused |}.

(** Lines 65-74: the string constraint applied to the advanced heights. *)
Definition enforce_string_constraint (L : Q) (ys : Q * Q) : Q * Q :=
  let '(a, b) := ys in
  let current_separation := Qabs (a - b) in
  if Qltb L current_separation then
    let midpoint := (a + b) / 2 in
    if Qltb b a then (midpoint + L / 2, midpoint - L / 2)
    else (midpoint - L / 2, midpoint + L / 2)
  else (a, b).

(** [update_physics]. *)
Definition update_physics (p : params) (s : state) : state :=
  let v1' := v1 s + acceleration s * dt p in
  let v2' := v2 s - acceleration s * dt p in
  let ys := enforce_string_constraint (string_length p)
              (y1 s + v1' * dt p, y2 s + v2' * dt p) in
  let t' := current_time s + dt p in
  let th := append (time_history s) t' in
  {| current_time := t';
     y1 := fst ys; y2 := snd ys;
     v1 := v1'; v2 := v2';
     acceleration := acceleration s; tension := tension s;
     time_history := pop_if_long th th;
     y1_history := pop_if_long th (append (y1_history s) (fst ys));
     y2_history := pop_if_long th (append (y2_history s) (snd ys));
     v1_history := pop_if_long th (append (v1_history s) v1');
     v2_history := pop_if_long th (append (v2_history s) v2');
     paused := paused s |}.

(** The state part of [animate_frame] (lines 294-295). *)
Definition animate_frame (p : params) (s : state) : state :=
  if negb (paused s) && Qltb (current_time s) (t_max p)
  then update_physics p s else s.

Definition separation (s : state) : Q := Qabs (y1 s - y2 s).

(** The machine after [n] frames from a fresh, running start. *)
Definition run (p : params) (n : nat) : state :=
  iter n (animate_frame p) (reset_simulation p false).

(** The five history lists have one length, at most 500. *)
Definition history_ok (s : state) : Prop :=
  (length (time_history s) <= 500)%nat
  /\ length (y1_history s) = length (time_history s)
  /\ length (y2_history s) = length (time_history s)
  /\ length (v1_history s) = length (time_history s)
  /\ length (v2_history s) = length (time_history s).

(** A state of the default machine with the string already taut: the
    masses are 4 apart and still moving apart. *)
Definition taut_state : state :=
  {| current_time := 1;
     y1 := 2; y2 := -(2); v1 := 1; v2 := -(1);
     acceleration := 327 # 100; tension := 1308 # 100;
     time_history := [1]; y1_history := [2]; y2_history := [-(2)];
     v1_history := [1]; v2_history := [-(1)];
     paused := false |}.

End AtwoodMachine.

(** ** The rotation engines *)

(** The four radio-button labels, the keys of [object_types]. *)
Inductive object_type := Disk | Ring | Rod | Sphere.

(** The ["I_factor"] entries of [object_types]. *)
Definition I_factor (o : object_type) : Q :=
  match o with
  | Disk => 5 # 10
  | Ring => 1
  | Rod => 1 / 3
  | Sphere => 4 # 10
  end.

Record rotation_params := mkRotationParams {
  dt : Q; t_max : Q;
  mass : Q; radius : Q; torque : Q;
  current_type : object_type
}.

Record rotation_state := mkRotationState {
  theta : Q; omega : Q; alpha : Q;
  moment_of_inertia : Q;
  current_time : Q;
  time_history : list Q; theta_history : list Q;
  omega_history : list Q; alpha_history : list Q;
  paused : bool
}.

(** Both files set the same values in [setup_parameters]. *)
Definition rotation_setup_parameters : rotation_params :=
  {| dt := 2 # 100; t_max := 10;
     mass := 1; radius := 1 # 2; torque := 1;
     current_type := Disk |}.

(** Sliders at mass 0.1, radius 0.1 and torque 5 on the disk: the fastest
    spin the sliders allow for it. *)
Definition spin_parameters : rotation_params :=
  {| dt := 2 # 100; t_max := 10;
     mass := 1 # 10; radius := 1 # 10; torque := 5;
     current_type := Disk |}.

(** The moment of inertia of [reset_simulation], the same in both files. *)
Definition inertia (p : rotation_params) : Q :=
  match current_type p with
  | Rod => (1 / 3) * mass p * (2 * radius p) ^ 2
  | o => I_factor o * mass p * radius p ^ 2
  end.

(** [np.pi] is the double nearest to pi, the rational
    884279719003555 / 2^48. *)
Definition np_pi : Q := 884279719003555 # 281474976710656.

(** Python's [a % b] on floats for a positive [b]: the remainder of the
    floored division. *)
Definition py_mod (a b : Q) : Q := a - b * inject_Z (Qfloor (a / b)).

(** The angle one Euler step computes before any wrapping:
    [omega += alpha * dt] and then [theta += omega * dt]. *)
Definition raw_theta (p : rotation_params) (s : rotation_state) : Q :=
  theta s + (omega s + alpha s * dt p) * dt p.

(** The four history lists have one length, at most 500. *)
Definition rotation_history_ok (s : rotation_state) : Prop :=
  (length (time_history s) <= 500)%nat
  /\ length (theta_history s) = length (time_history s)
  /\ length (omega_history s) = length (time_history s)
  /\ length (alpha_history s) = length (time_history s).

(** [update_type] / [update_object_type]: the radio button stores the
    label; the callers then reset. *)
Definition update_type (p : rotation_params) (label : object_type)
  : rotation_params :=
  {| dt := dt p; t_max := t_max p;
     mass := mass p; radius := radius p; torque := torque p;
     current_type := label |}.

(** *** rigid_body_rotation.py *)

Module RigidBodyRotation.

(** [reset_simulation]: [alpha] is an unguarded division. *)
Definition reset_simulation (p : rotation_params) (is_paused : bool)
  : rotation_state :=
  {| theta := 0; omega := 0;
     alpha := torque p / inertia p;
     moment_of_inertia := inertia p;
     current_time := 0;
     time_history := []; theta_history := [];
     omega_history := []; alpha_history := [];
     paused := is_paused |}.

(** [update_physics] (lines 209-224): the pause and [t_max] test is inside
    the method, and [theta] is stored as computed. *)
Definition update_physics (p : rotation_params) (s : rotation_state)
  : rotation_state :=
  if negb (paused s) && Qltb (current_time s) (t_max p) then
    let omega' := omega s + alpha s * dt p in
    let theta' := theta s + omega' * dt p in
    let t' := current_time s + dt p in
    let th := append (time_history s) t' in
    {| theta := theta'; omega := omega'; alpha := alpha s;
       moment_of_inertia := moment_of_inertia s;
       current_time := t';
       time_history := pop_if_long th th;
       theta_history := pop_if_long th (append (theta_history s) theta');
       omega_history := pop_if_long th (append (omega_history s) omega');
       alpha_history := pop_if_long th (append (alpha_history s) (alpha s));
       paused := paused s |}
  else s.

(** The state part of [animate_frame] is the call of [update_physics]. *)
Definition animate_frame := update_physics.

(** The engine after [n] frames from a fresh, running start. *)
Definition run (p : rotation_params) (n : nat) : rotation_state :=
  iter n (update_physics p) (reset_simulation p false).

End RigidBodyRotation.

(** *** free_fall_simulation.py *)

Module FreeFallSimulation.

(** [reset_simulation]: [alpha] is guarded against a non-positive moment of
    inertia. *)
Definition reset_simulation (p : rotation_params) (is_paused : bool)
  : rotation_state :=
  {| theta := 0; omega := 0;
     alpha := if Qltb 0 (inertia p) then torque p / inertia p else 0;
     moment_of_inertia := inertia p;
     current_time := 0;
     time_history := []; theta_history := [];
     omega_history := []; alpha_history := [];
     paused := is_paused |}.

(** Lines 94-95: the lazy wrap of the angle. *)
Definition wrap (th : Q) : Q :=
  if Qltb (4 * np_pi) th then py_mod th (2 * np_pi) else th.

(** [update_physics] (lines 85-111). *)
Definition update_physics (p : rotation_params) (s : rotation_state)
  : rotation_state :=
  let omega' := omega s + alpha s * dt p in
  let theta' := wrap (theta s + omega' * dt p) in
  let t' := current_time s + dt p in
  let th := append (time_history s) t' in
  {| theta := theta'; omega := omega'; alpha := alpha s;
     moment_of_inertia := moment_of_inertia s;
     current_time := t';
     time_history := pop_if_long th th;
     theta_history := pop_if_long th (append (theta_history s) theta');
     omega_history := pop_if_long th (append (omega_history s) omega');
     alpha_history := pop_if_long th (append (alpha_history s) (alpha s));
     paused := paused s |}.

(** The state part of [animate_frame] (lines 395-396). *)
Definition animate_frame (p : rotation_params) (s : rotation_state)
  : rotation_state :=
  if negb (paused s) && Qltb (current_time s) (t_max p)
  then update_physics p s else s.

Definition run (p : rotation_params) (n : nat) : rotation_state :=
  iter n (animate_frame p) (reset_simulation p false).

End FreeFallSimulation.

(** ** snap_line.py *)

(** What a method call leaves behind: the updated object, or the exception
    it raises. *)
Inductive exn := IndexError | ValueError.

Inductive outcome (A : Type) :=
| Done (a : A)
| Raise (e : exn).
Arguments Done {A} a.
Arguments Raise {A} e.

Module LineDrawer.

(** A [Line2D] of this tool always holds two points: [xdata = [x0, x1]] and
    [ydata = [y0, y1]]. *)
Record line2d := mkLine {
  xdata : Q * Q;
  ydata : Q * Q
}.

(** The attributes of [LineDrawer]: the curve samples [x], [y] (arrays
    handed in by the host), the line ([None] until an angle is entered),
    the angle, the offset and the snap index. *)
Record line_drawer := mkDrawer {
  x : list Q; y : list Q;
  line : option line2d;
  angle : Q;
  line_offset : Q * Q;
  snap_target_index : nat
}.

Definition set_line (d : line_drawer) (l : line2d) (off : Q * Q)
  : line_drawer :=
  {| x := x d; y := y d; line := Some l; angle := angle d;
     line_offset := off; snap_target_index := snap_target_index d |}.

(** [__init__]: no line yet, and the snap index starts at 100. *)
Definition init (x_quad y_quad : list Q) : line_drawer :=
  {| x := x_quad; y := y_quad; line := None; angle := 0;
     line_offset := (0, 0); snap_target_index := 100 |}.

(** [np.argmin]: the first index of the smallest entry; an empty array
    raises [ValueError]. *)
Fixpoint argmin_from (best_i : nat) (best : Q) (i : nat) (l : list Q) : nat :=
  match l with
  | [] => best_i
  | a :: l' =>
      if Qltb a best then argmin_from i a (S i) l'
      else argmin_from best_i best (S i) l'
  end.

Definition argmin (l : list Q) : outcome nat :=
  match l with
  | [] => Raise ValueError
  | a :: l' => Done (argmin_from 0 a 1 l')
  end.

(** [update_snap_index].  The argument is what [float(text)] gives for the
    submitted text: the number, or [ValueError] for a text that is not
    numeric.  The [except ValueError] clause catches that failure and the
    one of [np.argmin] on an empty curve alike, and the drawer is then left
    as it is. *)
Definition update_snap_index (d : line_drawer) (parsed : outcome Q)
  : outcome line_drawer :=
  match parsed with
  | Done x_val =>
      match argmin (map (fun a => Qabs (a - x_val)) (x d)) with
      | Done idx =>
          Done {| x := x d; y := y d; line := line d; angle := angle d;
                  line_offset := line_offset d; snap_target_index := idx |}
      | Raise ValueError => Done d
      | Raise e => Raise e
      end
  | Raise ValueError => Done d
  | Raise e => Raise e
  end.

(** [move_line]: the offset is accumulated even without a line. *)
Definition move_line (d : line_drawer) (dx dy : Q) : line_drawer :=
  let off := (fst (line_offset d) + dx, snd (line_offset d) + dy) in
  match line d with
  | Some l =>
      set_line d
        {| xdata := (fst (xdata l) + dx, snd (xdata l) + dx);
           ydata := (fst (ydata l) + dy, snd (ydata l) + dy) |} off
  | None =>
      {| x := x d; y := y d; line := None; angle := angle d;
         line_offset := off; snap_target_index := snap_target_index d |}
  end.

(** [snap]: a no-op without a line; indexing the curve past its end raises
    [IndexError]. *)
Definition snap (d : line_drawer) : outcome line_drawer :=
  match line d with
  | None => Done d
  | Some l =>
      let idx := snap_target_index d in
      match nth_error (x d) idx, nth_error (y d) idx with
      | Some x_targ, Some y_targ =>
          let mx := (fst (xdata l) + snd (xdata l)) / 2 in
          let my := (fst (ydata l) + snd (ydata l)) / 2 in
          let dx := x_targ - mx in
          let dy := y_targ - my in
          Done (set_line d
                  {| xdata := (fst (xdata l) + dx, snd (xdata l) + dx);
                     ydata := (fst (ydata l) + dy, snd (ydata l) + dy) |}
                  (fst (line_offset d) + dx, snd (line_offset d) + dy))
      | _, _ => Raise IndexError
      end
  end.

(** [np.clip(t, 0, 1)]. *)
Definition clip01 (t : Q) : Q := Qmin 1 (Qmax t 0).

(** The square of what [point_line_dist] returns for one sample
    [(xp, yp)].  The code takes the square root; the root is monotone, so
    ordering samples by the square orders them by the distance. *)
Definition point_line_dist2 (l : line2d) (xp yp : Q) : Q :=
  let x0 := fst (xdata l) in let y0 := fst (ydata l) in
  let x1 := snd (xdata l) in let y1 := snd (ydata l) in
  let dx := x1 - x0 in
  let dy := y1 - y0 in
  let t := ((xp - x0) * dx + (yp - y0) * dy) / (dx ^ 2 + dy ^ 2) in
  let t := clip01 t in
  let x_proj := x0 + t * dx in
  let y_proj := y0 + t * dy in
  (xp - x_proj) ^ 2 + (yp - y_proj) ^ 2.

(** [point_line_dist(self.x, self.y)]: the call on the two arrays, sample by
    sample. *)
Definition dists2 (l : line2d) (xs ys : list Q) : list Q :=
  map (fun pt => point_line_dist2 l (fst pt) (snd pt)) (combine xs ys).

(** [np.argsort]: the indices of [ds] in ascending order of their entries,
    here by insertion; equal entries keep their index order. *)
Fixpoint insert_by (key : nat -> Q) (i : nat) (l : list nat) : list nat :=
  match l with
  | [] => [i]
  | j :: l' =>
      if Qleb (key i) (key j) then i :: j :: l' else j :: insert_by key i l'
  end.

Definition argsort (ds : list Q) : list nat :=
  fold_right (insert_by (fun i => nth i ds 0)) [] (seq 0 (length ds)).

(** [trim]: a no-op without a line; unpacking fewer than two indices raises
    [ValueError]. *)
Definition trim (d : line_drawer) : outcome line_drawer :=
  match line d with
  | None => Done d
  | Some l =>
      let dists := dists2 l (x d) (y d) in
      match firstn 2 (argsort dists) with
      | [a; b] =>
          let idx1 := Nat.min a b in
          let idx2 := Nat.max a b in
          match nth_error (x d) idx1, nth_error (x d) idx2,
                nth_error (y d) idx1, nth_error (y d) idx2 with
          | Some xa, Some xb, Some ya, Some yb =>
              Done (set_line d {| xdata := (xa, xb); ydata := (ya, yb) |}
                      (line_offset d))
          | _, _, _, _ => Raise IndexError
          end
      | _ => Raise ValueError
      end
  end.

(** The point of the segment at the parameter [s], for [0 <= s <= 1], and
    the squared distance between two points. *)
Definition segment_point (l : line2d) (s : Q) : Q * Q :=
  (fst (xdata l) + s * (snd (xdata l) - fst (xdata l)),
   fst (ydata l) + s * (snd (ydata l) - fst (ydata l))).

Definition sq_dist (p q : Q * Q) : Q :=
  (fst p - fst q) ^ 2 + (snd p - snd q) ^ 2.

(** The distance of a point to a segment, said without the projection: [D]
    is the squared distance from [(xp, yp)] to the segment [l] when it is
    the squared distance to some point of the segment and no point of the
    segment is nearer. *)
Definition is_segment_dist2 (l : line2d) (xp yp D : Q) : Prop :=
  (exists s, 0 <= s <= 1 /\ D == sq_dist (xp, yp) (segment_point l s))
  /\ (forall s, 0 <= s <= 1 -> D <= sq_dist (xp, yp) (segment_point l s)).

(** The displacement from the first to the second end point: it fixes both
    the length and the orientation of the line. *)
Definition direction (l : line2d) : Q * Q :=
  (snd (xdata l) - fst (xdata l), snd (ydata l) - fst (ydata l)).

Definition midpoint (l : line2d) : Q * Q :=
  ((fst (xdata l) + snd (xdata l)) / 2, (fst (ydata l) + snd (ydata l)) / 2).

Definition length2 (l : line2d) : Q :=
  fst (direction l) ^ 2 + snd (direction l) ^ 2.

(** Two lines with the same end points up to the writing of the
    rationals. *)
Definition line_eq (a b : line2d) : Prop :=
  fst (xdata a) == fst (xdata b) /\ snd (xdata a) == snd (xdata b)
  /\ fst (ydata a) == fst (ydata b) /\ snd (ydata a) == snd (ydata b).

(** A drawer over five samples of the parabola y = x^2, with a line from
    (-1, 2) to (3, 4) and the snap index on the sample (1, 1). *)
Definition parabola_line : line2d :=
  {| xdata := (-(1), 3); ydata := (2, 4) |}.

Definition parabola_drawer : line_drawer :=
  {| x := [-(2); -(1); 0; 1; 2]; y := [4; 1; 0; 1; 4];
     line := Some parabola_line;
     angle := 0; line_offset := (0, 0);
     snap_target_index := 3 |}.

(** The same curve and line in a drawer that still has the start index
    100. *)
Definition stale_drawer : line_drawer :=
  set_line (init [-(2); -(1); 0; 1; 2] [4; 1; 0; 1; 4]) parabola_line (0, 0).

End LineDrawer.

(** ** SHO.py *)

Module SHO.

(** The module-level [defaults] dictionary. *)
Definition defaults : gmap string Q :=
  <["Amplitude" := 1]> (<["Mass" := 1]> (<["Spring Constant" := 1]>
  (<["Phase" := 0]> (<["Duration" := 10]> (<["FPS" := 60]> ∅))))).

(** [defaults[key]]. *)
Definition default_of (key : string) : Q :=
  match defaults !! key with
  | Some v => v
  | None => 0
  end.

(** [key in ["Mass", "Spring Constant", "Duration", "FPS"]]. *)
Definition requires_positive (key : string) : bool :=
  bool_decide (key ∈ ["Mass"; "Spring Constant"; "Duration"; "FPS"]).

(** The test of line 85. *)
Definition invalid (key : string) (value : Q) : bool :=
  requires_positive key && Qleb value 0.

(** The simulator as [submit] sees it: the slider values, a dictionary in
    insertion order, and the [params] dictionary. *)
Record simulator := mkSim {
  sliders : list (string * Q);
  params : gmap string Q
}.

(** One turn of the loop of [submit] (lines 84-90): the value that is stored
    for [key], in the slider and in [params]. *)
Definition accepted (key : string) (value : Q) : Q :=
  if invalid key value then default_of key else value.

Definition submit_field (ps : gmap string Q) (kv : string * Q)
  : gmap string Q :=
  <[fst kv := accepted (fst kv) (snd kv)]> ps.

(** [submit], lines 83-90. *)
Definition submit (s : simulator) : simulator :=
  {| sliders := map (fun kv => (fst kv, accepted (fst kv) (snd kv)))
                    (sliders s);
     params := fold_left submit_field (sliders s) (params s) |}.

(** A batch with one offending field, [Mass = -2], beside a negative
    amplitude and a zero phase, which are not checked, over the start
    value of [params], a copy of [defaults]. *)
Definition mixed_batch : simulator :=
  {| sliders := [("Amplitude", -(3)); ("Mass", -(2));
                 ("Spring Constant", 4); ("Phase", 0);
                 ("Duration", 5); ("FPS", 30)];
     params := defaults |}.

End SHO.

(** ** projectile_motion.py *)

Module ProjectileMotion.

(** What [update_trajectory] computes from the vertical launch speed
    [v0y], the launch height [h0] and [g]: the height at time [t]
    (one entry of [self.y]) and [max_height]. *)
Record launch := mkLaunch { g : Q; v0y : Q; h0 : Q }.

Definition y_at (l : launch) (t : Q) : Q :=
  h0 l + v0y l * t - (5 # 10) * g l * t ^ 2.

Definition max_height (l : launch) : Q :=
  h0 l + v0y l ^ 2 / (2 * g l).

End ProjectileMotion.

(** ** home_screen.py *)

Module HomeScreen.



End HomeScreen.

(** * Properties *)

(** ** Comparisons and iteration *)

(** [lra] after turning the halves [a / 2] into products. *)
Ltac qlra := unfold Qdiv in *; change (/ 2) with (1 # 2) in *; lra.

Lemma Qleb_true a b : Qleb a b = true <-> a <= b.
Proof. apply Qle_bool_iff. Qed.

Lemma Qleb_false a b : Qleb a b = false <-> b < a.
Proof.
  unfold Qleb. split; intros H.
  - apply Qnot_le_lt. intros Hle. apply Qle_bool_iff in Hle. congruence.
  - destruct (Qle_bool a b) eqn:E; [|reflexivity].
    apply Qle_bool_iff in E. lra.
Qed.

Lemma Qltb_true a b : Qltb a b = true <-> a < b.
Proof. unfold Qltb. rewrite Bool.negb_true_iff. apply (Qleb_false b a). Qed.

Lemma Qltb_false a b : Qltb a b = false <-> b <= a.
Proof. unfold Qltb. rewrite Bool.negb_false_iff. apply (Qleb_true b a). Qed.

(** The comparisons do not see how a rational is written. *)
Lemma Qleb_proper a a' b b' : a == a' -> b == b' -> Qleb a b = Qleb a' b'.
Proof.
  intros Ha Hb. destruct (Qleb a' b') eqn:E.
  - apply Qleb_true. apply Qleb_true in E. lra.
  - apply Qleb_false. apply Qleb_false in E. lra.
Qed.

Lemma Qltb_proper a a' b b' : a == a' -> b == b' -> Qltb a b = Qltb a' b'.
Proof.
  intros Ha Hb. unfold Qltb. f_equal. apply Qleb_proper; assumption.
Qed.

Lemma iter_first {A : Type} (f : A -> A) (n : nat) (a : A) :
  iter (S n) f a = iter n f (f a).
Proof. reflexivity. Qed.

Lemma iter_last {A : Type} (f : A -> A) (n : nat) (a : A) :
  iter (S n) f a = f (iter n f a).
Proof.
  revert a. induction n as [|n IH]; intros a; [reflexivity|].
  rewrite iter_first, IH. reflexivity.
Qed.

Lemma iter_fixed {A : Type} (f : A -> A) (n : nat) (a : A) :
  f a = a -> iter n f a = a.
Proof.
  intros Hf. induction n as [|n IH]; [reflexivity|].
  simpl. rewrite Hf. exact IH.
Qed.

(** ** The elastic-collision engine *)

Module ElasticCollisionSpec.
Import ElasticCollision.

Lemma wall_block1_inside p s : inside p (x1 s) -> wall_block1 p s = s.
Proof.
  intros [Hl Hr]. unfold wall_block1.
  apply Qleb_false in Hl. rewrite Hl.
  apply Qleb_false in Hr. rewrite Hr. reflexivity.
Qed.

Lemma wall_block2_inside p s : inside p (x2 s) -> wall_block2 p s = s.
Proof.
  intros [Hl Hr]. unfold wall_block2.
  apply Qleb_false in Hl. rewrite Hl.
  apply Qleb_false in Hr. rewrite Hr. reflexivity.
Qed.

Lemma advance_current_v1 p s : current_v1 (advance p s) = current_v1 s.
Proof. reflexivity. Qed.

Lemma advance_current_v2 p s : current_v2 (advance p s) = current_v2 s.
Proof. reflexivity. Qed.

(** Without a wall hit the micro-step is the advance followed by the
    block-block test. *)
Lemma update_positions_no_wall p s :
  no_wall_hit p s -> update_positions p s = block_collision p (advance p s).
Proof.
  intros [H1 H2]. unfold update_positions.
  rewrite (wall_block1_inside p (advance p s) H1).
  rewrite (wall_block2_inside p (advance p s) H2). reflexivity.
Qed.

(** *** The micro-step does not depend on how the rationals are written *)

Ltac state_eq_fields H :=
  destruct H as (Hx1 & Hx2 & Hv1 & Hv2 & Ht & Hl & Hp).

Ltac state_eq_solve :=
  unfold state_eq;
  cbn [x1 x2 current_v1 current_v2 t last_collision_time is_paused];
  repeat split;
  first [ assumption | reflexivity
        | match goal with
          | Hx1 : _ == _, Hx2 : _ == _, Hv1 : _ == _, Hv2 : _ == _,
            Ht : _ == _, Hl : _ == _ |- _ =>
              rewrite ?Hx1, ?Hx2, ?Hv1, ?Hv2, ?Ht, ?Hl; reflexivity
          end ].

Lemma state_eq_refl s : state_eq s s.
Proof. unfold state_eq. repeat split; reflexivity. Qed.

Lemma state_eq_sym a b : state_eq a b -> state_eq b a.
Proof.
  intros H. state_eq_fields H. unfold state_eq.
  repeat split; symmetry; assumption.
Qed.

Lemma state_eq_trans a b c : state_eq a b -> state_eq b c -> state_eq a c.
Proof.
  intros H1 H2. state_eq_fields H1.
  destruct H2 as (Kx1 & Kx2 & Kv1 & Kv2 & Kt & Kl & Kp).
  unfold state_eq. repeat split; try (etransitivity; eassumption).
Qed.

Lemma normalize_eq s : state_eq (normalize s) s.
Proof. unfold state_eq, normalize. cbn. repeat split; apply Qred_correct. Qed.

Lemma advance_proper p a b :
  state_eq a b -> state_eq (advance p a) (advance p b).
Proof. intros H. state_eq_fields H. unfold advance. state_eq_solve. Qed.

Lemma wall_block1_proper p a b :
  state_eq a b -> state_eq (wall_block1 p a) (wall_block1 p b).
Proof.
  intros H. pose proof H as H'. state_eq_fields H. unfold wall_block1.
  rewrite (Qleb_proper (x1 a - block_width p / 2) (x1 b - block_width p / 2)
             (wall_left p) (wall_left p))
    by (rewrite ?Hx1; reflexivity).
  rewrite (Qleb_proper (wall_right p) (wall_right p)
             (x1 a + block_width p / 2) (x1 b + block_width p / 2))
    by (rewrite ?Hx1; reflexivity).
  destruct (Qleb (x1 b - block_width p / 2) (wall_left p));
    [|destruct (Qleb (wall_right p) (x1 b + block_width p / 2))];
    try exact H'; state_eq_solve.
Qed.

Lemma wall_block2_proper p a b :
  state_eq a b -> state_eq (wall_block2 p a) (wall_block2 p b).
Proof.
  intros H. pose proof H as H'. state_eq_fields H. unfold wall_block2.
  rewrite (Qleb_proper (x2 a - block_width p / 2) (x2 b - block_width p / 2)
             (wall_left p) (wall_left p))
    by (rewrite ?Hx2; reflexivity).
  rewrite (Qleb_proper (wall_right p) (wall_right p)
             (x2 a + block_width p / 2) (x2 b + block_width p / 2))
    by (rewrite ?Hx2; reflexivity).
  destruct (Qleb (x2 b - block_width p / 2) (wall_left p));
    [|destruct (Qleb (wall_right p) (x2 b + block_width p / 2))];
    try exact H'; state_eq_solve.
Qed.

Lemma collision_triggered_proper p a b :
  state_eq a b -> collision_triggered p a = collision_triggered p b.
Proof.
  intros H. state_eq_fields H. unfold collision_triggered. cbv zeta.
  rewrite (Qleb_proper (Qabs (x1 a - x2 a)) (Qabs (x1 b - x2 b))
             (block_width p) (block_width p))
    by (rewrite ?Hx1, ?Hx2; reflexivity).
  rewrite (Qltb_proper (collision_cooldown p) (collision_cooldown p)
             (t a - last_collision_time a) (t b - last_collision_time b))
    by (rewrite ?Ht, ?Hl; reflexivity).
  rewrite (Qltb_proper (x1 a) (x1 b) (x2 a) (x2 b)) by assumption.
  rewrite (Qltb_proper (x2 a) (x2 b) (x1 a) (x1 b)) by assumption.
  rewrite (Qltb_proper 0 0 (current_v1 a - current_v2 a)
             (current_v1 b - current_v2 b))
    by (rewrite ?Hv1, ?Hv2; reflexivity).
  rewrite (Qltb_proper (current_v1 a - current_v2 a)
             (current_v1 b - current_v2 b) 0 0)
    by (rewrite ?Hv1, ?Hv2; reflexivity).
  reflexivity.
Qed.

Lemma block_collision_proper p a b :
  state_eq a b -> state_eq (block_collision p a) (block_collision p b).
Proof.
  intros H. pose proof H as H'. unfold block_collision.
  rewrite (collision_triggered_proper p a b H).
  destruct (collision_triggered p b); [|exact H'].
  state_eq_fields H. cbv zeta.
  rewrite (Qltb_proper (x1 a) (x1 b) (x2 a) (x2 b)) by assumption.
  unfold v1_new, v2_new.
  destruct (Qltb (x1 b) (x2 b)); state_eq_solve.
Qed.

Lemma update_positions_proper p a b :
  state_eq a b -> state_eq (update_positions p a) (update_positions p b).
Proof.
  intros H. unfold update_positions.
  apply block_collision_proper, wall_block2_proper, wall_block1_proper,
    advance_proper, H.
Qed.

(** The reduced run denotes the same states as the run of the engine. *)
Lemma run_reduced_eq p n : state_eq (run p n) (run_reduced p n).
Proof.
  unfold run, run_reduced. induction n as [|n IH]; [apply state_eq_refl|].
  rewrite !iter_last.
  eapply state_eq_trans; [apply update_positions_proper, IH|].
  apply state_eq_sym, normalize_eq.
Qed.

Lemma no_wall_hit_proper p a b :
  state_eq a b -> no_wall_hit p b -> no_wall_hit p a.
Proof.
  intros H. destruct (advance_proper p a b H) as (Hx1 & Hx2 & _).
  unfold no_wall_hit, inside. rewrite Hx1, Hx2. tauto.
Qed.

Lemma contained_proper p a b : state_eq a b -> contained p b -> contained p a.
Proof.
  intros H. state_eq_fields H. unfold contained. rewrite Hx1, Hx2. tauto.
Qed.

(** What the evaluation of the reduced run says about the head-on
    scenario: the state before micro-step 117, and the state after it. *)
Lemma before_head_on_reduced :
  state_eq before_head_on (run_reduced setup_parameters 116).
Proof. apply run_reduced_eq. Qed.

Lemma after_head_on_reduced :
  state_eq (update_positions setup_parameters before_head_on)
    (update_positions setup_parameters (run_reduced setup_parameters 116)).
Proof. apply update_positions_proper, before_head_on_reduced. Qed.

(** The head-on scenario really is an isolated block-block collision: after
    116 micro-steps the blocks still have their initial velocities, and
    micro-step 117 hits no wall and triggers the collision. *)
Lemma head_on_is_isolated :
  current_v1 before_head_on == 2 /\ current_v2 before_head_on == -(1)
  /\ no_wall_hit setup_parameters before_head_on
  /\ collision_triggered setup_parameters
       (advance setup_parameters before_head_on) = true.
Proof.
  pose proof before_head_on_reduced as E.
  pose proof E as (_ & _ & Hv1 & Hv2 & _).
  split; [|split; [|split]].
  - transitivity (current_v1 (run_reduced setup_parameters 116));
      [exact Hv1 | vm_compute; reflexivity].
  - transitivity (current_v2 (run_reduced setup_parameters 116));
      [exact Hv2 | vm_compute; reflexivity].
  - apply (no_wall_hit_proper _ _ _ E). vm_compute. repeat split.
  - rewrite (collision_triggered_proper _ _ _ (advance_proper _ _ _ E)).
    vm_compute. reflexivity.
Qed.

(** The velocities the engine stores in micro-step 117. *)
Lemma head_on_velocities :
  current_v1 (update_positions setup_parameters before_head_on) == -(2)
  /\ current_v2 (update_positions setup_parameters before_head_on) == 1.
Proof.
  pose proof after_head_on_reduced as (_ & _ & Hv1 & Hv2 & _). split.
  - transitivity
      (current_v1 (update_positions setup_parameters
                     (run_reduced setup_parameters 116)));
      [exact Hv1 | vm_compute; reflexivity].
  - transitivity
      (current_v2 (update_positions setup_parameters
                     (run_reduced setup_parameters 116)));
      [exact Hv2 | vm_compute; reflexivity].
Qed.

(** C1, as stated, fails: in the head-on scenario m1=1, v1=2, m2=2, v2=-1
    the collision does not leave v1' = -2/3 and v2' = 2/3. *)
Lemma head_on_not_two_thirds :
  ~ (current_v1 (update_positions setup_parameters before_head_on) == -(2 # 3)
     /\ current_v2 (update_positions setup_parameters before_head_on) == 2 # 3).
Proof.
  destruct head_on_velocities as [E _].
  intros [H _]. rewrite E in H. discriminate H.
Qed.

(** C1, amended: for m1=1, v1=2, m2=2, v2=-1 the block-block collision
    yields exactly v1' = -2 and v2' = 1. *)
Theorem head_on_scenario p s :
  m1 p == 1 -> m2 p == 2 -> current_v1 s == 2 -> current_v2 s == -(1) ->
  collision_triggered p s = true ->
  current_v1 (block_collision p s) == -(2)
  /\ current_v2 (block_collision p s) == 1.
Proof.
  intros Hm1 Hm2 Hv1 Hv2 Hc. unfold block_collision. rewrite Hc.
  unfold v1_new, v2_new. simpl.
  rewrite Hm1, Hm2, Hv1, Hv2. split; reflexivity.
Qed.

Lemma head_on_scenario_witness :
  update_positions setup_parameters before_head_on
  = block_collision setup_parameters (advance setup_parameters before_head_on)
  /\ current_v1 (update_positions setup_parameters before_head_on) == -(2)
  /\ current_v2 (update_positions setup_parameters before_head_on) == 1.
Proof.
  destruct head_on_is_isolated as (Hv1 & Hv2 & Hw & Hc).
  assert (E : update_positions setup_parameters before_head_on
              = block_collision setup_parameters
                  (advance setup_parameters before_head_on))
    by (apply update_positions_no_wall; exact Hw).
  split; [exact E|]. rewrite E.
  apply (head_on_scenario setup_parameters
           (advance setup_parameters before_head_on)).
  - reflexivity.
  - reflexivity.
  - rewrite advance_current_v1. exact Hv1.
  - rewrite advance_current_v2. exact Hv2.
  - exact Hc.
Defined.

(** C4: across an isolated block-block collision (no wall is touched in the
    micro-step) the total momentum m1*v1 + m2*v2 is unchanged. *)
Theorem momentum_conserved p s :
  ~ m1 p + m2 p == 0 ->
  no_wall_hit p s ->
  collision_triggered p (advance p s) = true ->
  momentum p (update_positions p s) == momentum p s.
Proof.
  intros Hm Hw Hc. rewrite (update_positions_no_wall p s Hw).
  unfold block_collision. rewrite Hc.
  unfold momentum, v1_new, v2_new. simpl. field. exact Hm.
Qed.

Lemma momentum_conserved_witness :
  momentum setup_parameters (update_positions setup_parameters before_head_on)
  == momentum setup_parameters before_head_on.
Proof.
  destruct head_on_is_isolated as (_ & _ & Hw & Hc).
  apply (momentum_conserved setup_parameters before_head_on).
  - vm_compute. discriminate.
  - exact Hw.
  - exact Hc.
Defined.

(** C5: when a micro-step resolves a block-block collision, the stored
    velocities are the closed-form expressions
    ((m1-m2)v1 + 2 m2 v2)/(m1+m2) and ((m2-m1)v2 + 2 m1 v1)/(m1+m2), both
    taken at the velocities the blocks have when the collision is detected;
    without a wall hit these are the velocities before the micro-step. *)
Theorem collision_closed_form p s :
  collision_triggered p (wall_block2 p (wall_block1 p (advance p s))) = true ->
  let pre := wall_block2 p (wall_block1 p (advance p s)) in
  let post := update_positions p s in
  current_v1 post
  = ((m1 p - m2 p) * current_v1 pre + 2 * m2 p * current_v2 pre)
    / (m1 p + m2 p)
  /\ current_v2 post
     = ((m2 p - m1 p) * current_v2 pre + 2 * m1 p * current_v1 pre)
       / (m1 p + m2 p)
  /\ (no_wall_hit p s ->
      current_v1 pre = current_v1 s /\ current_v2 pre = current_v2 s).
Proof.
  intros Hc pre post. subst pre post.
  unfold update_positions, block_collision. rewrite Hc. simpl.
  repeat split.
  - destruct H as [H1 H2].
    rewrite (wall_block1_inside p (advance p s) H1).
    rewrite (wall_block2_inside p (advance p s) H2). reflexivity.
  - destruct H as [H1 H2].
    rewrite (wall_block1_inside p (advance p s) H1).
    rewrite (wall_block2_inside p (advance p s) H2). reflexivity.
Qed.

Lemma collision_closed_form_witness :
  current_v1 (update_positions setup_parameters before_head_on)
  = ((1 - 2) * current_v1 before_head_on + 2 * 2 * current_v2 before_head_on)
    / (1 + 2)
  /\ current_v2 (update_positions setup_parameters before_head_on)
     = ((2 - 1) * current_v2 before_head_on + 2 * 1 * current_v1 before_head_on)
       / (1 + 2).
Proof.
  destruct head_on_is_isolated as (_ & _ & Hw & Hc).
  assert (Hc' : collision_triggered setup_parameters
                  (wall_block2 setup_parameters
                     (wall_block1 setup_parameters
                        (advance setup_parameters before_head_on))) = true).
  { destruct Hw as [H1 H2].
    rewrite (wall_block1_inside _ _ H1), (wall_block2_inside _ _ H2).
    exact Hc. }
  destruct (collision_closed_form setup_parameters before_head_on Hc')
    as [E1 [E2 E3]].
  destruct (E3 Hw) as [F1 F2].
  rewrite <- F1, <- F2. split; [exact E1 | exact E2].
Defined.

(** After the two wall checks both blocks lie between the walls. *)
Lemma wall_phase_contained p s :
  wall_left p + block_width p <= wall_right p ->
  contained p (wall_block2 p (wall_block1 p s)).
Proof.
  intros Hw. unfold contained, wall_block2, wall_block1.
  destruct (Qleb (x1 s - block_width p / 2) (wall_left p)) eqn:A1;
    [| destruct (Qleb (wall_right p) (x1 s + block_width p / 2)) eqn:A2];
    simpl;
    (destruct (Qleb (x2 s - block_width p / 2) (wall_left p)) eqn:B1;
     [| destruct (Qleb (wall_right p) (x2 s + block_width p / 2)) eqn:B2]);
    simpl;
    repeat match goal with
      | H : Qleb _ _ = false |- _ => apply Qleb_false in H
      | H : Qleb _ _ = true |- _ => apply Qleb_true in H
      end;
    repeat split; qlra.
Qed.

(** A micro-step that resolves no block-block collision keeps both blocks
    between the walls. *)
Lemma update_positions_contained p s :
  wall_left p + block_width p <= wall_right p ->
  collision_triggered p (wall_block2 p (wall_block1 p (advance p s))) = false ->
  contained p (update_positions p s).
Proof.
  intros Hw Hc. unfold update_positions, block_collision. rewrite Hc.
  apply wall_phase_contained. exact Hw.
Qed.

(** C6: at the sliders v1 = -1.9, v2 = -4.3 the engine is contained after
    145 micro-steps, and micro-step 146 pushes block 1 through the left
    wall: the overlap correction of the block-block collision runs after the
    wall checks. *)
Theorem wall_containment_broken :
  let s := run chase_parameters 145 in
  let s' := update_positions chase_parameters s in
  contained chase_parameters s
  /\ collision_triggered chase_parameters
       (wall_block2 chase_parameters (wall_block1 chase_parameters
          (advance chase_parameters s))) = true
  /\ x1 s' - block_width chase_parameters / 2 < wall_left chase_parameters
  /\ ~ contained chase_parameters s'.
Proof.
  cbv zeta.
  pose proof (run_reduced_eq chase_parameters 145) as E.
  pose proof (update_positions_proper chase_parameters _ _ E)
    as (Hx1 & _).
  assert (Hlt : x1 (update_positions chase_parameters
                      (run chase_parameters 145))
                - block_width chase_parameters / 2
                < wall_left chase_parameters).
  { rewrite Hx1. vm_compute. reflexivity. }
  split; [|split; [|split]].
  - apply (contained_proper _ _ _ E). vm_compute. repeat split; discriminate.
  - rewrite (collision_triggered_proper _ _ _
               (wall_block2_proper _ _ _
                  (wall_block1_proper _ _ _ (advance_proper _ _ _ E)))).
    vm_compute. reflexivity.
  - exact Hlt.
  - intros [[H _] _]. exact (Qlt_not_le _ _ Hlt H).
Qed.

End ElasticCollisionSpec.

(** ** The Atwood machine *)

Lemma Qabs_cases (a : Q) :
  (0 <= a /\ Qabs a == a) \/ (a <= 0 /\ Qabs a == - a).
Proof.
  destruct (Qlt_le_dec a 0) as [H|H].
  - right. split; [lra|]. apply Qabs_neg. lra.
  - left. split; [exact H|]. apply Qabs_pos. exact H.
Qed.

Module AtwoodMachineSpec.
Import AtwoodMachine.

(** The projection keeps the midpoint. *)
Lemma constraint_midpoint L a b :
  (fst (enforce_string_constraint L (a, b))
   + snd (enforce_string_constraint L (a, b))) / 2 == (a + b) / 2.
Proof.
  unfold enforce_string_constraint.
  destruct (Qltb L (Qabs (a - b))); [destruct (Qltb b a)|];
    cbn [fst snd]; field.
Qed.

(** When the projection fires, the separation becomes the string length. *)
Lemma constraint_exact L a b :
  0 <= L -> L < Qabs (a - b) ->
  Qabs (fst (enforce_string_constraint L (a, b))
        - snd (enforce_string_constraint L (a, b))) == L.
Proof.
  intros HL Hsep. unfold enforce_string_constraint.
  apply Qltb_true in Hsep. rewrite Hsep.
  destruct (Qltb b a); cbn [fst snd].
  - assert (E : (a + b) / 2 + L / 2 - ((a + b) / 2 - L / 2) == L) by field.
    rewrite E. apply Qabs_pos. exact HL.
  - assert (E : (a + b) / 2 - L / 2 - ((a + b) / 2 + L / 2) == - L) by field.
    rewrite E, Qabs_opp. apply Qabs_pos. exact HL.
Qed.

(** After the projection the separation is at most the string length. *)
Lemma constraint_bound L a b :
  0 <= L ->
  Qabs (fst (enforce_string_constraint L (a, b))
        - snd (enforce_string_constraint L (a, b))) <= L.
Proof.
  intros HL. destruct (Qlt_le_dec L (Qabs (a - b))) as [H|H].
  - rewrite (constraint_exact L a b HL H). lra.
  - unfold enforce_string_constraint.
    apply Qltb_false in H. rewrite H. cbn [fst snd].
    apply Qltb_false in H. exact H.
Qed.

Lemma update_physics_separation p s :
  0 <= string_length p ->
  separation (update_physics p s) <= string_length p.
Proof.
  intros HL. unfold separation, update_physics. cbn [y1 y2].
  apply constraint_bound. exact HL.
Qed.

(** C3: after every step of the Atwood machine |y1 - y2| <= string_length,
    and the constraint projection keeps the midpoint (y1+y2)/2 while
    setting the separation, when it fires, to exactly string_length. *)
Theorem string_constraint p s n a b :
  0 <= string_length p ->
  separation (iter (S n) (update_physics p) s) <= string_length p
  /\ (fst (enforce_string_constraint (string_length p) (a, b))
      + snd (enforce_string_constraint (string_length p) (a, b))) / 2
     == (a + b) / 2
  /\ (string_length p < Qabs (a - b) ->
      Qabs (fst (enforce_string_constraint (string_length p) (a, b))
            - snd (enforce_string_constraint (string_length p) (a, b)))
      == string_length p).
Proof.
  intros HL. split; [|split].
  - rewrite iter_last. apply update_physics_separation. exact HL.
  - apply constraint_midpoint.
  - apply constraint_exact. exact HL.
Qed.

Lemma string_constraint_witness :
  separation (iter 2 (update_physics setup_parameters) taut_state) <= 4
  /\ (fst (enforce_string_constraint 4 (3, -(2)))
      + snd (enforce_string_constraint 4 (3, -(2)))) / 2 == (3 + -(2)) / 2
  /\ Qabs (fst (enforce_string_constraint 4 (3, -(2)))
           - snd (enforce_string_constraint 4 (3, -(2)))) == 4.
Proof.
  assert (HL : 0 <= string_length setup_parameters)
    by (vm_compute; discriminate).
  destruct (string_constraint setup_parameters taut_state 1 3 (-(2)) HL)
    as [H1 [H2 H3]].
  split; [exact H1|]. split; [exact H2|].
  apply H3. vm_compute. reflexivity.
Defined.

(** In that run the projection fires: the first step from [taut_state]
    would stretch the string, and it is stored at separation 4. *)
Lemma taut_state_is_projected :
  4 < Qabs (y1 taut_state + (v1 taut_state + acceleration taut_state * (2 # 100)) * (2 # 100)
            - (y2 taut_state + (v2 taut_state - acceleration taut_state * (2 # 100)) * (2 # 100)))
  /\ separation (update_physics setup_parameters taut_state) == 4.
Proof. vm_compute. split; reflexivity. Qed.

End AtwoodMachineSpec.

(** ** The rotation engines *)

Module RotationSpec.

Lemma np_pi_pos : 0 < np_pi.
Proof. reflexivity. Qed.

(** Python's remainder by a positive number lies in [0, b). *)
Lemma py_mod_range a b : 0 < b -> 0 <= py_mod a b /\ py_mod a b < b.
Proof.
  intros Hb. unfold py_mod.
  assert (Hlo := Qfloor_le (a / b)).
  assert (Hhi := Qlt_floor (a / b)).
  rewrite inject_Z_plus in Hhi.
  change (inject_Z 1) with 1 in Hhi.
  set (f := inject_Z (Qfloor (a / b))) in *.
  assert (E : a == b * (a / b)) by (field; lra).
  assert (H1 : b * f <= b * (a / b)) by (apply Qmult_le_l; assumption).
  assert (H2 : b * (a / b) < b * (f + 1)) by (apply Qmult_lt_l; assumption).
  split.
  - rewrite <- E in H1. lra.
  - rewrite <- E in H2. lra.
Qed.

(** Where the sibling's step runs through the wrap. *)
Lemma wrap_spec th :
  (4 * np_pi < th ->
   FreeFallSimulation.wrap th = py_mod th (2 * np_pi)
   /\ 0 <= FreeFallSimulation.wrap th < 2 * np_pi)
  /\ (th <= 4 * np_pi -> FreeFallSimulation.wrap th = th)
  /\ FreeFallSimulation.wrap th <= 4 * np_pi.
Proof.
  assert (Hpi := np_pi_pos).
  assert (H2pi : 0 < 2 * np_pi) by lra.
  unfold FreeFallSimulation.wrap.
  destruct (Qltb (4 * np_pi) th) eqn:E.
  - apply Qltb_true in E.
    destruct (py_mod_range th (2 * np_pi) H2pi) as [A B].
    repeat split; try assumption; try lra.
  - apply Qltb_false in E.
    repeat split; try reflexivity; try lra.
Qed.

(** C2, as stated, fails for the engine of rigid_body_rotation.py: three
    frames after a reset at the sliders of [spin_parameters] the step
    computes an angle above 4 pi and stores it as it is, not its remainder
    modulo 2 pi. *)
Lemma rigid_body_rotation_keeps_raw_angle :
  let p := spin_parameters in
  let s := RigidBodyRotation.run p 2 in
  4 * np_pi < raw_theta p s
  /\ ~ theta (RigidBodyRotation.update_physics p s)
       == py_mod (raw_theta p s) (2 * np_pi)
  /\ ~ theta (RigidBodyRotation.update_physics p s) <= 4 * np_pi.
Proof.
  intros p s.
  assert (E : theta (RigidBodyRotation.update_physics p s) == 24)
    by (vm_compute; reflexivity).
  assert (R : raw_theta p s == 24) by (vm_compute; reflexivity).
  assert (Hpi : 4 * np_pi < 24) by reflexivity.
  assert (H2pi : 0 < 2 * np_pi) by reflexivity.
  destruct (py_mod_range (raw_theta p s) (2 * np_pi) H2pi) as [_ B].
  split; [rewrite R; exact Hpi|]. split.
  - intros H. rewrite E in H. rewrite <- H in B. lra.
  - intros H. rewrite E in H. lra.
Qed.

(** C2, amended: the step of free_fall_simulation.py wraps the angle modulo
    2 pi once it exceeds 4 pi, so the stored angle is at most 4 pi after
    every step, and lazily, an angle in (2 pi, 4 pi] being stored as it is;
    the step of rigid_body_rotation.py never wraps and stores the computed
    angle whenever it runs. *)
Theorem theta_wrap p s :
  let th' := theta (FreeFallSimulation.update_physics p s) in
  (4 * np_pi < raw_theta p s ->
   th' = py_mod (raw_theta p s) (2 * np_pi) /\ 0 <= th' < 2 * np_pi)
  /\ (raw_theta p s <= 4 * np_pi -> th' = raw_theta p s)
  /\ (2 * np_pi < raw_theta p s <= 4 * np_pi -> 2 * np_pi < th')
  /\ th' <= 4 * np_pi
  /\ (paused s = false -> current_time s < t_max p ->
      theta (RigidBodyRotation.update_physics p s) = raw_theta p s).
Proof.
  intros th'. subst th'. unfold FreeFallSimulation.update_physics.
  cbn [theta]. fold (raw_theta p s).
  destruct (wrap_spec (raw_theta p s)) as [A [B C]].
  split; [exact A|]. split; [exact B|]. split; [|split; [exact C|]].
  - intros [H1 H2]. rewrite (B H2). exact H1.
  - intros Hp Ht. unfold RigidBodyRotation.update_physics.
    apply Qltb_true in Ht. rewrite Hp, Ht. reflexivity.
Qed.

Lemma theta_wrap_witness :
  (* frame 3 of the sibling, from the angle 12 to the raw angle 24 *)
  (theta (FreeFallSimulation.update_physics spin_parameters
            (FreeFallSimulation.run spin_parameters 2))
   = py_mod (raw_theta spin_parameters
               (FreeFallSimulation.run spin_parameters 2)) (2 * np_pi)
   /\ 0 <= theta (FreeFallSimulation.update_physics spin_parameters
                    (FreeFallSimulation.run spin_parameters 2))
        < 2 * np_pi)
  (* frame 2 of the sibling: the raw angle 12 lies in (2 pi, 4 pi] *)
  /\ 2 * np_pi < theta (FreeFallSimulation.update_physics spin_parameters
                          (FreeFallSimulation.run spin_parameters 1))
  (* frame 3 of rigid_body_rotation.py *)
  /\ theta (RigidBodyRotation.update_physics spin_parameters
              (RigidBodyRotation.run spin_parameters 2))
     = raw_theta spin_parameters (RigidBodyRotation.run spin_parameters 2).
Proof.
  split; [|split].
  - apply (theta_wrap spin_parameters
             (FreeFallSimulation.run spin_parameters 2)).
    vm_compute. reflexivity.
  - apply (theta_wrap spin_parameters
             (FreeFallSimulation.run spin_parameters 1)).
    split; vm_compute; [reflexivity | discriminate].
  - apply (theta_wrap spin_parameters
             (RigidBodyRotation.run spin_parameters 2)).
    + reflexivity.
    + vm_compute. reflexivity.
Defined.

End RotationSpec.

(** ** The time cutoff *)

Module CutoffSpec.

Lemma atwood_frame_after_t_max p s :
  AtwoodMachine.t_max p <= AtwoodMachine.current_time s ->
  AtwoodMachine.animate_frame p s = s.
Proof.
  intros H. unfold AtwoodMachine.animate_frame.
  apply Qltb_false in H. rewrite H, Bool.andb_false_r. reflexivity.
Qed.

Lemma rotation_frame_after_t_max p s :
  t_max p <= current_time s ->
  RigidBodyRotation.update_physics p s = s
  /\ FreeFallSimulation.animate_frame p s = s.
Proof.
  intros H. unfold RigidBodyRotation.update_physics,
    FreeFallSimulation.animate_frame.
  apply Qltb_false in H. rewrite H, Bool.andb_false_r. split; reflexivity.
Qed.

Module Clock.
Import ElasticCollision.

Lemma update_positions_time p s : t (update_positions p s) = t s + dt p.
Proof.
  unfold update_positions, block_collision, wall_block2, wall_block1.
  repeat match goal with
    | |- context [if ?c then _ else _] => destruct c
    end; reflexivity.
Qed.

Lemma iter_update_positions_time p n s :
  t (iter n (update_positions p) s)
  == t s + inject_Z (Z.of_nat n) * dt p.
Proof.
  revert s. induction n as [|n IH]; intros s.
  - simpl iter. change (inject_Z (Z.of_nat 0)) with 0. lra.
  - rewrite iter_first, IH, update_positions_time.
    rewrite Nat2Z.inj_succ. unfold Z.succ. rewrite inject_Z_plus.
    change (inject_Z 1) with 1. lra.
Qed.

End Clock.

(** C10: once the elapsed time has reached t_max, any number of further
    frames leaves the whole state of the Atwood machine and of the rotation
    engine (positions, velocities, angle, time) as it is, paused or not; the
    default t_max of both is 10.  A running frame of the elastic-collision
    engine advances its clock by frame_skip * dt whatever the clock shows. *)
Theorem time_cutoff
  (pa : AtwoodMachine.params) (sa : AtwoodMachine.state)
  (pr : rotation_params) (sr : rotation_state)
  (pe : ElasticCollision.params) (se : ElasticCollision.state) (n : nat) :
  AtwoodMachine.t_max pa <= AtwoodMachine.current_time sa ->
  t_max pr <= current_time sr ->
  ElasticCollision.is_paused se = false ->
  iter n (AtwoodMachine.animate_frame pa) sa = sa
  /\ iter n (RigidBodyRotation.animate_frame pr) sr = sr
  /\ iter n (FreeFallSimulation.animate_frame pr) sr = sr
  /\ AtwoodMachine.t_max AtwoodMachine.setup_parameters = 10
  /\ t_max rotation_setup_parameters = 10
  /\ ElasticCollision.t (ElasticCollision.update_animation pe se)
     == ElasticCollision.t se
        + inject_Z (Z.of_nat (ElasticCollision.frame_skip pe))
          * ElasticCollision.dt pe.
Proof.
  intros Ha Hr He.
  destruct (rotation_frame_after_t_max pr sr Hr) as [R1 R2].
  repeat split.
  - apply iter_fixed, atwood_frame_after_t_max, Ha.
  - apply iter_fixed, R1.
  - apply iter_fixed, R2.
  - unfold ElasticCollision.update_animation. rewrite He. simpl negb.
    cbv iota. apply Clock.iter_update_positions_time.
Qed.

Lemma time_cutoff_witness :
  let sa := AtwoodMachine.mkState 10 2 (-(2)) 1 (-(1)) (327 # 100)
              (1308 # 100) [] [] [] [] [] false in
  let sr := mkRotationState 400 80 8 (1 # 8) 10 [] [] [] [] false in
  let se := ElasticCollision.mkState (-(1)) 1 2 (-(1)) 25 (-(1)) false in
  iter 3 (AtwoodMachine.animate_frame AtwoodMachine.setup_parameters) sa = sa
  /\ iter 3 (RigidBodyRotation.animate_frame rotation_setup_parameters) sr
     = sr
  /\ iter 3 (FreeFallSimulation.animate_frame rotation_setup_parameters) sr
     = sr
  /\ ElasticCollision.t
       (ElasticCollision.update_animation ElasticCollision.setup_parameters se)
     == 25 + inject_Z (Z.of_nat 2) * (1 # 100).
Proof.
  intros sa sr se.
  destruct (time_cutoff AtwoodMachine.setup_parameters sa
              rotation_setup_parameters sr
              ElasticCollision.setup_parameters se 3)
    as (A & B & C & _ & _ & D).
  - vm_compute. discriminate.
  - vm_compute. discriminate.
  - reflexivity.
  - split; [exact A|]. split; [exact B|]. split; [exact C|exact D].
Defined.

End CutoffSpec.

(** ** The line utility *)

Module LineDrawerSpec.
Import LineDrawer.

(** C7: [snap] on an existing line puts the midpoint of the line on the
    target sample (x[idx], y[idx]) and keeps the displacement between the
    two end points, hence the length and the orientation of the line. *)
Theorem snap_exact d l x_targ y_targ :
  line d = Some l ->
  nth_error (x d) (snap_target_index d) = Some x_targ ->
  nth_error (y d) (snap_target_index d) = Some y_targ ->
  exists d' l',
    snap d = Done d' /\ line d' = Some l'
    /\ fst (midpoint l') == x_targ /\ snd (midpoint l') == y_targ
    /\ fst (direction l') == fst (direction l)
    /\ snd (direction l') == snd (direction l)
    /\ length2 l' == length2 l.
Proof.
  intros Hl Hx Hy. unfold snap. rewrite Hl, Hx, Hy.
  eexists _, _. split; [reflexivity|]. split; [reflexivity|].
  unfold length2, direction, midpoint. cbn [xdata ydata fst snd].
  repeat split; field.
Qed.

Lemma snap_exact_witness :
  exists d' l',
    snap parabola_drawer = Done d' /\ line d' = Some l'
    /\ fst (midpoint l') == 1 /\ snd (midpoint l') == 1
    /\ fst (direction l') == 4
    /\ snd (direction l') == 2
    /\ length2 l' == 20.
Proof.
  destruct (snap_exact parabola_drawer parabola_line 1 1
              eq_refl eq_refl eq_refl)
    as (d' & l' & H1 & H2 & H3 & H4 & H5 & H6 & H7).
  exists d', l'. repeat split; assumption.
Defined.

(** *** [argsort] *)

Section Argsort.
Variable key : nat -> Q.

Let le_key (i j : nat) : Prop := key i <= key j.

Lemma insert_by_perm i l : Permutation (insert_by key i l) (i :: l).
Proof.
  induction l as [|j l IH]; [reflexivity|].
  cbn [insert_by]. destruct (Qleb (key i) (key j)); [reflexivity|].
  rewrite IH. apply perm_swap.
Qed.

Lemma insert_by_sorted i l :
  StronglySorted le_key l -> StronglySorted le_key (insert_by key i l).
Proof.
  induction 1 as [|j l Hs IH Hall]; cbn [insert_by].
  - constructor; constructor.
  - destruct (Qleb (key i) (key j)) eqn:E.
    + apply Qleb_true in E. constructor; [constructor; assumption|].
      constructor; [exact E|].
      eapply Forall_impl; [exact Hall|].
      intros k Hk. unfold le_key in *. lra.
    + apply Qleb_false in E. constructor; [exact IH|].
      rewrite (insert_by_perm i l). constructor; [|exact Hall].
      unfold le_key. lra.
Qed.

Lemma fold_insert_perm l : Permutation (fold_right (insert_by key) [] l) l.
Proof.
  induction l as [|i l IH]; [reflexivity|].
  cbn [fold_right]. rewrite insert_by_perm, IH. reflexivity.
Qed.

Lemma fold_insert_sorted l :
  StronglySorted le_key (fold_right (insert_by key) [] l).
Proof.
  induction l as [|i l IH]; [constructor|].
  cbn [fold_right]. apply insert_by_sorted, IH.
Qed.

End Argsort.

(** [argsort] lists every index once, in ascending order of the entries. *)
Lemma argsort_perm ds : Permutation (argsort ds) (seq 0 (length ds)).
Proof. apply fold_insert_perm. Qed.

Lemma argsort_sorted ds :
  StronglySorted (fun i j => nth i ds 0 <= nth j ds 0) (argsort ds).
Proof. apply fold_insert_sorted. Qed.

Lemma dists2_length l xs ys :
  length xs = length ys -> length (dists2 l xs ys) = length xs.
Proof.
  intros H. unfold dists2.
  rewrite length_map, length_combine, <- H. apply Nat.min_id.
Qed.

Lemma dists2_nth l xs ys k xk yk :
  nth_error xs k = Some xk -> nth_error ys k = Some yk ->
  nth k (dists2 l xs ys) 0 = point_line_dist2 l xk yk.
Proof.
  revert ys k. induction xs as [|a xs IH]; intros [|b ys] [|k] Hx Hy;
    try discriminate.
  - injection Hx as ->. injection Hy as ->. reflexivity.
  - apply (IH ys k); assumption.
Qed.

(** *** The distance [trim] sorts by *)

Lemma clip01_cases t :
  (t <= 0 /\ clip01 t == 0) \/ (1 <= t /\ clip01 t == 1)
  \/ (0 <= t <= 1 /\ clip01 t == t).
Proof.
  unfold clip01.
  destruct (Q.max_spec t 0) as [[Ht Hm]|[Ht Hm]];
    destruct (Q.min_spec 1 (Qmax t 0)) as [[Hl Hn]|[Hl Hn]];
    rewrite Hn; rewrite Hm in Hl.
  - lra.
  - left. split; [lra | exact Hm].
  - right. left. split; [lra | reflexivity].
  - right. right. split; [lra | exact Hm].
Qed.

Lemma clip01_range t : 0 <= clip01 t <= 1.
Proof.
  destruct (clip01_cases t) as [[H E]|[[H E]|[H E]]]; rewrite E; lra.
Qed.

Lemma square_nonneg (a : Q) : 0 <= a * a.
Proof. destruct (Qlt_le_dec a 0) as [H|H]; nra. Qed.

(** The clamped parameter is the best one in [0, 1]: for a parabola
    [s * s * L - 2 * s * (t * L)] with [L > 0]. *)
Lemma clamped_parameter_best (L t s : Q) :
  0 < L -> 0 <= s <= 1 ->
  0 <= L * ((s - clip01 t) * (s + clip01 t - 2 * t)).
Proof.
  intros HL [Hs0 Hs1]. apply Qmult_le_0_compat; [lra|].
  destruct (clip01_cases t) as [[H E]|[[H E]|[H E]]]; rewrite E.
  - apply Qmult_le_0_compat; lra.
  - assert (R : (s - 1) * (s + 1 - 2 * t) == (1 - s) * (2 * t - s - 1))
      by ring.
    rewrite R. apply Qmult_le_0_compat; lra.
  - assert (R : (s - t) * (s + t - 2 * t) == (s - t) * (s - t)) by ring.
    rewrite R. apply square_nonneg.
Qed.

(** What [point_line_dist] computes is the distance to the segment: it is
    the squared distance to the point of the segment at the clamped
    parameter, and no point of the segment is nearer. *)
Lemma point_line_dist2_is_segment_dist2 l xp yp :
  ~ length2 l == 0 ->
  is_segment_dist2 l xp yp (point_line_dist2 l xp yp).
Proof.
  destruct l as [[x0 x1] [y0 y1]].
  unfold is_segment_dist2, point_line_dist2, sq_dist, segment_point, length2,
    direction.
  cbv zeta. cbn [xdata ydata fst snd]. intros Hn.
  set (P := (xp - x0) * (x1 - x0) + (yp - y0) * (y1 - y0)).
  set (L := (x1 - x0) ^ 2 + (y1 - y0) ^ 2) in *.
  set (t := P / L).
  assert (HL : 0 < L).
  { assert (0 <= L).
    { unfold L. change ((x1 - x0) ^ 2) with ((x1 - x0) * (x1 - x0)).
      change ((y1 - y0) ^ 2) with ((y1 - y0) * (y1 - y0)).
      pose proof (square_nonneg (x1 - x0)).
      pose proof (square_nonneg (y1 - y0)). lra. }
    apply Qle_lteq in H. destruct H as [H|H]; [exact H|].
    exfalso. apply Hn. symmetry. exact H. }
  assert (Ht : t * L == P) by (unfold t; field; exact Hn).
  split.
  - exists (clip01 t). split; [apply clip01_range | reflexivity].
  - intros s Hs.
    pose proof (clamped_parameter_best L t s HL Hs) as Hbest.
    set (c := clip01 t) in *.
    assert (Id : (xp - (x0 + s * (x1 - x0))) ^ 2
                 + (yp - (y0 + s * (y1 - y0))) ^ 2
                 == (xp - (x0 + c * (x1 - x0))) ^ 2
                    + (yp - (y0 + c * (y1 - y0))) ^ 2
                    + (s - c) * ((s + c) * L - 2 * P))
      by (unfold L, P; ring).
    assert (Id2 : (s - c) * ((s + c) * L - 2 * P)
                  == L * ((s - c) * (s + c - 2 * t)))
      by (rewrite <- Ht; ring).
    rewrite Id, Id2. lra.
Qed.

(** C8: [trim] on an existing line (with distinct end points, over a curve
    of at least two samples) sets the end points to two samples of the
    curve, the one with the smaller index first, and no other sample is
    closer to the old segment than either of them, where the distance
    [trim] compares is the point-to-segment distance: the least distance
    to a point of the segment. *)
Theorem trim_endpoints d l :
  line d = Some l ->
  ~ length2 l == 0 ->
  length (x d) = length (y d) ->
  (2 <= length (x d))%nat ->
  exists i1 i2 xa ya xb yb,
    trim d = Done (set_line d {| xdata := (xa, xb); ydata := (ya, yb) |}
                     (line_offset d))
    /\ (i1 < i2)%nat
    /\ nth_error (x d) i1 = Some xa /\ nth_error (y d) i1 = Some ya
    /\ nth_error (x d) i2 = Some xb /\ nth_error (y d) i2 = Some yb
    /\ (forall xp yp, is_segment_dist2 l xp yp (point_line_dist2 l xp yp))
    /\ forall k xk yk,
         k <> i1 -> k <> i2 ->
         nth_error (x d) k = Some xk -> nth_error (y d) k = Some yk ->
         point_line_dist2 l xa ya <= point_line_dist2 l xk yk
         /\ point_line_dist2 l xb yb <= point_line_dist2 l xk yk.
Proof.
  intros Hl Hnz Hlen Hn.
  set (ds := dists2 l (x d) (y d)).
  assert (Hds : length ds = length (x d)) by (apply dists2_length, Hlen).
  assert (Hperm := argsort_perm ds). assert (Hsort := argsort_sorted ds).
  rewrite Hds in Hperm.
  assert (Hnd : NoDup (argsort ds))
    by (rewrite Hperm; apply NoDup_seq).
  assert (Hin : forall k, In k (argsort ds) <-> (k < length (x d))%nat).
  { intros k. rewrite Hperm, in_seq. lia. }
  pose proof (Permutation_length Hperm) as Hlsrt. rewrite length_seq in Hlsrt.
  destruct (argsort ds) as [|a [|b rest]] eqn:Esrt;
    [simpl in Hlsrt; lia | simpl in Hlsrt; lia |].
  clear Hlsrt.
  (* what ordering and distinctness give for the first two indices *)
  apply StronglySorted_inv in Hsort. destruct Hsort as [Hsort Ha].
  apply StronglySorted_inv in Hsort. destruct Hsort as [_ Hb].
  apply Forall_cons_iff in Ha. destruct Ha as [_ Ha].
  rewrite Forall_forall in Ha, Hb.
  assert (Hab : a <> b).
  { intros ->. apply NoDup_cons in Hnd. apply (proj1 Hnd). constructor. }
  assert (Ha_lt : (a < length (x d))%nat) by (apply Hin; now left).
  assert (Hb_lt : (b < length (x d))%nat) by (apply Hin; right; now left).
  assert (Hrest : forall k, (k < length (x d))%nat -> k <> a -> k <> b ->
                    nth a ds 0 <= nth k ds 0 /\ nth b ds 0 <= nth k ds 0).
  { intros k Hk Hka Hkb. apply Hin in Hk.
    destruct Hk as [->|[->|Hk]]; [congruence|congruence|].
    split; [apply Ha | apply Hb]; apply list_elem_of_In; exact Hk. }
  (* the samples at the two indices *)
  assert (Hget : forall i, (i < length (x d))%nat ->
            exists xi yi, nth_error (x d) i = Some xi
                          /\ nth_error (y d) i = Some yi).
  { intros i Hi.
    destruct (nth_error (x d) i) as [xi|] eqn:Ex;
      [|apply nth_error_None in Ex; lia].
    destruct (nth_error (y d) i) as [yi|] eqn:Ey;
      [|apply nth_error_None in Ey; lia].
    eauto. }
  assert (Hmin : (Nat.min a b < Nat.max a b)%nat) by lia.
  assert (Hcase : (Nat.min a b = a /\ Nat.max a b = b)
                  \/ (Nat.min a b = b /\ Nat.max a b = a)) by lia.
  destruct (Hget (Nat.min a b)) as (xa & ya & Exa & Eya); [lia|].
  destruct (Hget (Nat.max a b)) as (xb & yb & Exb & Eyb); [lia|].
  exists (Nat.min a b), (Nat.max a b), xa, ya, xb, yb.
  split.
  { unfold trim. rewrite Hl. fold ds. rewrite Esrt. cbn [firstn].
    rewrite Exa, Exb, Eya, Eyb. reflexivity. }
  split; [exact Hmin|]. repeat (split; [assumption|]).
  split.
  { intros xp yp. apply point_line_dist2_is_segment_dist2, Hnz. }
  intros k xk yk Hk1 Hk2 Exk Eyk.
  assert (Hk : (k < length (x d))%nat)
    by (apply nth_error_Some; congruence).
  rewrite <- (dists2_nth l (x d) (y d) _ _ _ Exa Eya).
  rewrite <- (dists2_nth l (x d) (y d) _ _ _ Exb Eyb).
  rewrite <- (dists2_nth l (x d) (y d) _ _ _ Exk Eyk).
  fold ds.
  destruct Hcase as [[E1 E2]|[E1 E2]]; rewrite E1, E2 in *;
    destruct (Hrest k Hk) as [A B]; try congruence; split; assumption.
Qed.

Lemma trim_endpoints_witness :
  exists i1 i2 xa ya xb yb,
    trim parabola_drawer
    = Done (set_line parabola_drawer
              {| xdata := (xa, xb); ydata := (ya, yb) |}
              (line_offset parabola_drawer))
    /\ (i1 < i2)%nat
    /\ nth_error (x parabola_drawer) i1 = Some xa
    /\ nth_error (y parabola_drawer) i1 = Some ya
    /\ nth_error (x parabola_drawer) i2 = Some xb
    /\ nth_error (y parabola_drawer) i2 = Some yb
    /\ (forall xp yp,
          is_segment_dist2 parabola_line xp yp
            (point_line_dist2 parabola_line xp yp))
    /\ forall k xk yk,
         k <> i1 -> k <> i2 ->
         nth_error (x parabola_drawer) k = Some xk ->
         nth_error (y parabola_drawer) k = Some yk ->
         point_line_dist2 parabola_line xa ya
         <= point_line_dist2 parabola_line xk yk
         /\ point_line_dist2 parabola_line xb yb
            <= point_line_dist2 parabola_line xk yk.
Proof.
  apply (trim_endpoints parabola_drawer parabola_line).
  - reflexivity.
  - vm_compute. discriminate.
  - reflexivity.
  - vm_compute. lia.
Defined.

(** On the parabola [trim] keeps the samples (-1, 1) and (2, 4); the
    sample (-1, 1) projects before the first end point, and its distance
    is the one to that end point. *)
Lemma trim_parabola :
  trim parabola_drawer
  = Done (set_line parabola_drawer {| xdata := (-(1), 2); ydata := (1, 4) |}
            (line_offset parabola_drawer))
  /\ point_line_dist2 parabola_line (-(1)) 1 == 1.
Proof. split; [vm_compute; reflexivity | reflexivity]. Qed.

End LineDrawerSpec.

(** ** Parameter submission of the harmonic oscillator *)

Module SHOSpec.
Import SHO.

(** A key that no slider carries keeps its entry of [params]. *)
Lemma submit_fields_other (l : list (string * Q)) (ps : gmap string Q) k :
  k ∉ map fst l -> fold_left submit_field l ps !! k = ps !! k.
Proof.
  revert ps. induction l as [|[k' v'] l IH]; intros ps Hk; [reflexivity|].
  cbn [map fst] in Hk. apply not_elem_of_cons in Hk. destruct Hk as [Hne Hk].
  cbn [fold_left]. rewrite (IH _ Hk). unfold submit_field. cbn [fst snd].
  apply lookup_insert_ne. congruence.
Qed.

(** Every slider of the batch ends up in [params] with its own accepted
    value, whatever the other sliders hold. *)
Lemma submit_fields_lookup (l : list (string * Q)) (ps : gmap string Q) k v :
  NoDup (map fst l) -> (k, v) ∈ l ->
  fold_left submit_field l ps !! k = Some (accepted k v).
Proof.
  revert ps. induction l as [|[k' v'] l IH]; intros ps Hnd Hin.
  - apply elem_of_nil in Hin. destruct Hin.
  - cbn [map fst] in Hnd. apply NoDup_cons in Hnd. destruct Hnd as [Hk' Hnd].
    cbn [fold_left]. apply elem_of_cons in Hin. destruct Hin as [E|Hin].
    + injection E as -> ->. rewrite (submit_fields_other l _ k' Hk').
      unfold submit_field. cbn [fst snd]. apply lookup_insert_eq.
    + apply (IH _ Hnd Hin).
Qed.

(** The four checked keys all have a default: [defaults[key]] cannot fail
    where [submit] evaluates it. *)
Lemma default_of_checked k :
  requires_positive k = true -> defaults !! k = Some (default_of k).
Proof.
  unfold requires_positive. intros H. apply bool_decide_eq_true in H.
  repeat (apply elem_of_cons in H; destruct H as [->|H]; [reflexivity|]).
  apply elem_of_nil in H. destruct H.
Qed.

(** C9: in a submitted batch, a field that must be positive and is <= 0 is
    stored as its default, and every other field of the same batch is
    stored as submitted: the batch is never rejected as a whole. *)
Theorem submit_rejects_only_offending s k v :
  NoDup (map fst (sliders s)) ->
  (k, v) ∈ sliders s ->
  (invalid k v = true ->
   params (submit s) !! k = defaults !! k
   /\ defaults !! k = Some (default_of k))
  /\ (invalid k v = false -> params (submit s) !! k = Some v).
Proof.
  intros Hnd Hin. unfold submit. cbn [params].
  rewrite (submit_fields_lookup _ _ k v Hnd Hin). unfold accepted.
  split; intros Hv; rewrite Hv; [|reflexivity].
  unfold invalid in Hv. apply andb_true_iff in Hv. destruct Hv as [Hk _].
  rewrite (default_of_checked k Hk). split; reflexivity.
Qed.

Lemma submit_rejects_only_offending_witness :
  params (submit mixed_batch) !! "Mass" = Some 1
  /\ params (submit mixed_batch) !! "Amplitude" = Some (-(3)).
Proof.
  assert (Hnd : NoDup (map fst (sliders mixed_batch)))
    by (apply (bool_decide_unpack _); vm_compute; exact I).
  split.
  - destruct (submit_rejects_only_offending mixed_batch "Mass" (-(2)) Hnd)
      as [H _].
    + constructor. constructor.
    + destruct (H eq_refl) as [H1 H2]. rewrite H1. exact H2.
  - destruct (submit_rejects_only_offending mixed_batch "Amplitude" (-(3)) Hnd)
      as [_ H].
    + constructor.
    + exact (H eq_refl).
Defined.

End SHOSpec.

(** ** Further properties of the elastic-collision engine *)

Module ElasticCollisionInvariants.
Import ElasticCollision.

Lemma update_positions_unfold p s :
  update_positions p s = block_collision p (at_detection p s).
Proof. reflexivity. Qed.

Lemma advance_energy p s : kinetic_energy p (advance p s) = kinetic_energy p s.
Proof. reflexivity. Qed.

Lemma wall_block1_energy p s :
  kinetic_energy p (wall_block1 p s) == kinetic_energy p s.
Proof.
  unfold kinetic_energy, wall_block1.
  destruct (Qleb (x1 s - block_width p / 2) (wall_left p));
    [|destruct (Qleb (wall_right p) (x1 s + block_width p / 2))];
    cbn [current_v1 current_v2]; ring.
Qed.

Lemma wall_block2_energy p s :
  kinetic_energy p (wall_block2 p s) == kinetic_energy p s.
Proof.
  unfold kinetic_energy, wall_block2.
  destruct (Qleb (x2 s - block_width p / 2) (wall_left p));
    [|destruct (Qleb (wall_right p) (x2 s + block_width p / 2))];
    cbn [current_v1 current_v2]; ring.
Qed.

Lemma block_collision_energy p s :
  ~ m1 p + m2 p == 0 ->
  kinetic_energy p (block_collision p s) == kinetic_energy p s.
Proof.
  intros Hm. unfold kinetic_energy, block_collision.
  destruct (collision_triggered p s); [|reflexivity].
  cbn [current_v1 current_v2]. unfold v1_new, v2_new. field. exact Hm.
Qed.

(** Every micro-step keeps the kinetic energy, wall bounces and
    block-block collisions included, and so does every run. *)
Theorem kinetic_energy_invariant p s n :
  ~ m1 p + m2 p == 0 ->
  kinetic_energy p (iter n (update_positions p) s) == kinetic_energy p s.
Proof.
  intros Hm. induction n as [|n IH]; [reflexivity|].
  rewrite iter_last, update_positions_unfold.
  rewrite (block_collision_energy p _ Hm). unfold at_detection.
  rewrite wall_block2_energy, wall_block1_energy, advance_energy. exact IH.
Qed.

Lemma kinetic_energy_invariant_witness :
  kinetic_energy chase_parameters (run chase_parameters 146)
  == kinetic_energy chase_parameters (reset_simulation chase_parameters false).
Proof.
  apply (kinetic_energy_invariant chase_parameters
           (reset_simulation chase_parameters false) 146).
  vm_compute. discriminate.
Defined.

Lemma at_detection_clock p s :
  t (at_detection p s) = t s + dt p
  /\ last_collision_time (at_detection p s) = last_collision_time s.
Proof.
  unfold at_detection, wall_block2, wall_block1.
  repeat match goal with
    | |- context [if ?c then _ else _] => destruct c
    end; split; reflexivity.
Qed.

(** A resolved collision reverses the relative velocity of the blocks, and
    with a time step no longer than the cooldown the next micro-step
    resolves no collision. *)
Theorem no_collision_right_after_collision p s :
  ~ m1 p + m2 p == 0 ->
  dt p <= collision_cooldown p ->
  collision_triggered p (at_detection p s) = true ->
  current_v1 (update_positions p s) - current_v2 (update_positions p s)
  == - (current_v1 (at_detection p s) - current_v2 (at_detection p s))
  /\ collision_triggered p (at_detection p (update_positions p s)) = false.
Proof.
  intros Hm Hdt Hc.
  pose proof (update_positions_unfold p s) as E.
  split.
  - rewrite E. unfold block_collision. rewrite Hc.
    cbn [current_v1 current_v2]. unfold v1_new, v2_new. field. exact Hm.
  - destruct (at_detection_clock p (update_positions p s)) as [Ht Hl].
    unfold collision_triggered. cbv zeta. rewrite Ht, Hl.
    assert (Ecl : last_collision_time (update_positions p s)
                  = t (update_positions p s)).
    { rewrite E. unfold block_collision. rewrite Hc. reflexivity. }
    rewrite Ecl.
    assert (Hcool : Qltb (collision_cooldown p)
                      (t (update_positions p s) + dt p
                       - t (update_positions p s)) = false).
    { apply Qltb_false. lra. }
    rewrite Hcool, Bool.andb_false_r. reflexivity.
Qed.

Lemma no_collision_right_after_collision_witness :
  collision_triggered setup_parameters
    (at_detection setup_parameters
       (update_positions setup_parameters before_head_on)) = false.
Proof.
  destruct ElasticCollisionSpec.head_on_is_isolated as (_ & _ & Hw & Hc).
  apply (no_collision_right_after_collision setup_parameters before_head_on).
  - vm_compute. discriminate.
  - vm_compute. discriminate.
  - unfold at_detection. destruct Hw as [H1 H2].
    rewrite (ElasticCollisionSpec.wall_block1_inside _ _ H1),
      (ElasticCollisionSpec.wall_block2_inside _ _ H2).
    exact Hc.
Defined.

Lemma block_collision_separation p d :
  collision_triggered p d = true ->
  Qabs (x1 (block_collision p d) - x2 (block_collision p d)) == block_width p
  /\ x1 (block_collision p d) + x2 (block_collision p d) == x1 d + x2 d.
Proof.
  intros Hc. unfold block_collision. rewrite Hc. cbn [x1 x2].
  unfold collision_triggered in Hc. cbv zeta in Hc.
  apply andb_true_iff in Hc. destruct Hc as [Hc _].
  apply andb_true_iff in Hc. destruct Hc as [Hd _].
  apply Qleb_true in Hd.
  set (o := Qabs (x1 d - x2 d)) in *.
  destruct (Qabs_cases (x1 d - x2 d)) as [[Hs Ha]|[Hs Ha]]; fold o in Ha;
    destruct (Qltb (x1 d) (x2 d)) eqn:Hlt;
    [apply Qltb_true in Hlt | apply Qltb_false in Hlt
    |apply Qltb_true in Hlt | apply Qltb_false in Hlt];
    (split; [|qlra]).
  - lra.
  - assert (E : x1 d + (block_width p - o) / 2
                - (x2 d - (block_width p - o) / 2) == block_width p) by qlra.
    rewrite E. apply Qabs_pos. lra.
  - assert (E : x1 d - (block_width p - o) / 2
                - (x2 d + (block_width p - o) / 2) == - block_width p)
      by qlra.
    rewrite E, Qabs_opp. apply Qabs_pos. lra.
  - assert (E : x1 d + (block_width p - o) / 2
                - (x2 d - (block_width p - o) / 2) == block_width p) by qlra.
    rewrite E. apply Qabs_pos. lra.
Qed.

(** The overlap correction of a resolved collision leaves the blocks
    exactly one block width apart and keeps their midpoint. *)
Theorem overlap_correction p s :
  collision_triggered p (at_detection p s) = true ->
  Qabs (x1 (update_positions p s) - x2 (update_positions p s))
  == block_width p
  /\ x1 (update_positions p s) + x2 (update_positions p s)
     == x1 (at_detection p s) + x2 (at_detection p s).
Proof.
  intros Hc. rewrite update_positions_unfold.
  apply block_collision_separation, Hc.
Qed.

Lemma overlap_correction_witness :
  Qabs (x1 (update_positions setup_parameters before_head_on)
        - x2 (update_positions setup_parameters before_head_on))
  == block_width setup_parameters
  /\ x1 (update_positions setup_parameters before_head_on)
     + x2 (update_positions setup_parameters before_head_on)
     == x1 (at_detection setup_parameters before_head_on)
        + x2 (at_detection setup_parameters before_head_on).
Proof.
  destruct ElasticCollisionSpec.head_on_is_isolated as (_ & _ & Hw & Hc).
  apply (overlap_correction setup_parameters before_head_on).
  unfold at_detection. destruct Hw as [H1 H2].
  rewrite (ElasticCollisionSpec.wall_block1_inside _ _ H1),
    (ElasticCollisionSpec.wall_block2_inside _ _ H2).
  exact Hc.
Defined.

(** A micro-step that resolves no block-block collision leaves both blocks
    between the walls, whatever the state before it. *)
Theorem contained_without_collision p s :
  wall_left p + block_width p <= wall_right p ->
  collision_triggered p (at_detection p s) = false ->
  contained p (update_positions p s).
Proof.
  intros Hw Hc. rewrite update_positions_unfold.
  unfold block_collision. rewrite Hc.
  apply ElasticCollisionSpec.wall_phase_contained. exact Hw.
Qed.

Lemma contained_without_collision_witness :
  contained setup_parameters
    (update_positions setup_parameters
       (reset_simulation setup_parameters false)).
Proof.
  apply (contained_without_collision setup_parameters
           (reset_simulation setup_parameters false)).
  - vm_compute. discriminate.
  - vm_compute. reflexivity.
Defined.

End ElasticCollisionInvariants.

(** ** Further properties of the Atwood machine *)

(** A natural number as a rational. *)
Lemma inject_nat_succ n :
  inject_Z (Z.of_nat (S n)) == inject_Z (Z.of_nat n) + 1.
Proof.
  rewrite Nat2Z.inj_succ. unfold Z.succ. rewrite inject_Z_plus. reflexivity.
Qed.

Lemma pop_if_long_length (th h : list Q) :
  length h = length th ->
  length (pop_if_long th h) = length (pop_if_long th th).
Proof.
  intros H. unfold pop_if_long.
  destruct (Nat.ltb 500 (length th)); [|exact H].
  destruct h, th; simpl in *; congruence.
Qed.

Lemma pop_if_long_bound (h : list Q) (a : Q) :
  (length h <= 500)%nat ->
  (length (pop_if_long (append h a) (append h a)) <= 500)%nat.
Proof.
  intros H. unfold pop_if_long, append.
  destruct (Nat.ltb 500 (length (h ++ [a]))) eqn:E.
  - destruct h; simpl in *; [lia|]. rewrite length_app in *. simpl. lia.
  - apply Nat.ltb_ge in E. exact E.
Qed.

Lemma append_length (h : list Q) (a : Q) : length (append h a) = S (length h).
Proof. unfold append. rewrite length_app. simpl. lia. Qed.

Module AtwoodMachineInvariants.
Import AtwoodMachine.

Lemma update_physics_velocities p s :
  v1 (update_physics p s) = v1 s + acceleration s * dt p
  /\ v2 (update_physics p s) = v2 s - acceleration s * dt p
  /\ acceleration (update_physics p s) = acceleration s.
Proof. repeat split. Qed.

Lemma iter_velocities p n s :
  v1 (iter n (update_physics p) s)
  == v1 s + inject_Z (Z.of_nat n) * (acceleration s * dt p)
  /\ v2 (iter n (update_physics p) s)
     == v2 s - inject_Z (Z.of_nat n) * (acceleration s * dt p).
Proof.
  revert s. induction n as [|n IH]; intros s0.
  - simpl iter. change (inject_Z (Z.of_nat 0)) with 0. split; ring.
  - rewrite iter_first. destruct (IH (update_physics p s0)) as [A B].
    destruct (update_physics_velocities p s0) as (E1 & E2 & E3).
    rewrite A, B, E1, E2, E3, inject_nat_succ. split; ring.
Qed.

(** The two velocities change by opposite amounts: after [n] steps mass 1
    has gained [n * a * dt], mass 2 has lost it, and their sum is what it
    was; from a reset the velocities are exactly opposite. *)
Theorem velocities_opposite p s n :
  v1 (iter n (update_physics p) s)
  == v1 s + inject_Z (Z.of_nat n) * (acceleration s * dt p)
  /\ v2 (iter n (update_physics p) s)
     == v2 s - inject_Z (Z.of_nat n) * (acceleration s * dt p)
  /\ v1 (iter n (update_physics p) s) + v2 (iter n (update_physics p) s)
     == v1 s + v2 s
  /\ (forall b, v1 (iter n (update_physics p) (reset_simulation p b))
                == - v2 (iter n (update_physics p) (reset_simulation p b))).
Proof.
  destruct (iter_velocities p n s) as [A B].
  split; [exact A|]. split; [exact B|].
  split; [rewrite A, B; ring|].
  intros b. destruct (iter_velocities p n (reset_simulation p b)) as [A' B'].
  rewrite A', B'. cbn [v1 v2 reset_simulation]. ring.
Qed.

(** The sum of the two heights moves with the sum of the velocities only;
    the string constraint does not change it. *)
Lemma update_physics_heights p s :
  y1 (update_physics p s) + y2 (update_physics p s)
  == y1 s + y2 s + (v1 s + v2 s) * dt p.
Proof.
  unfold update_physics. cbn [y1 y2].
  pose proof (AtwoodMachineSpec.constraint_midpoint (string_length p)
                (y1 s + (v1 s + acceleration s * dt p) * dt p)
                (y2 s + (v2 s - acceleration s * dt p) * dt p)) as H.
  set (c := enforce_string_constraint _ _) in *.
  assert (H' : fst c + snd c
               == y1 s + (v1 s + acceleration s * dt p) * dt p
                  + (y2 s + (v2 s - acceleration s * dt p) * dt p)) by qlra.
  rewrite H'. ring.
Qed.

(** From a reset the midpoint of the two masses never moves. *)
Theorem midpoint_fixed p b n :
  y1 (iter n (update_physics p) (reset_simulation p b))
  + y2 (iter n (update_physics p) (reset_simulation p b))
  == y1_0 p + y2_0 p.
Proof.
  induction n as [|n IH]; [reflexivity|].
  rewrite iter_last, update_physics_heights, IH.
  destruct (iter_velocities p n (reset_simulation p b)) as [A B].
  rewrite A, B. cbn [v1 v2 reset_simulation]. ring.
Qed.

(** [reset_simulation] computes a tension that satisfies Newton's law for
    both masses with the acceleration it computes. *)
Theorem tension_balances p b :
  ~ m1 p + m2 p == 0 ->
  tension (reset_simulation p b)
  == m1 p * (g p + acceleration (reset_simulation p b))
  /\ tension (reset_simulation p b)
     == m2 p * (g p - acceleration (reset_simulation p b))
  /\ (m1 p == m2 p -> acceleration (reset_simulation p b) == 0).
Proof.
  intros Hm. cbn [reset_simulation tension acceleration].
  split; [field; exact Hm|]. split; [field; exact Hm|].
  intros E. rewrite E in Hm |- *. field. exact Hm.
Qed.

Lemma tension_balances_witness :
  tension (reset_simulation setup_parameters false)
  == 1 * ((981 # 100) + (327 # 100))
  /\ tension (reset_simulation setup_parameters false)
     == 2 * ((981 # 100) - (327 # 100)).
Proof.
  assert (Hm : ~ m1 setup_parameters + m2 setup_parameters == 0)
    by (vm_compute; discriminate).
  destruct (tension_balances setup_parameters false Hm) as (A & B & _).
  assert (Ea : acceleration (reset_simulation setup_parameters false)
               == 327 # 100) by (vm_compute; reflexivity).
  rewrite Ea in A, B. split; [exact A | exact B].
Defined.

Lemma update_physics_history p s :
  history_ok s -> history_ok (update_physics p s).
Proof.
  intros (Hb & H1 & H2 & H3 & H4). unfold history_ok, update_physics.
  cbn [time_history y1_history y2_history v1_history v2_history].
  split; [apply pop_if_long_bound, Hb|].
  repeat split; apply pop_if_long_length; rewrite !append_length; congruence.
Qed.

(** However long the machine runs, the five history lists keep one common
    length of at most 500 samples. *)
Theorem history_bounded p s n :
  history_ok s -> history_ok (iter n (animate_frame p) s).
Proof.
  revert s. induction n as [|n IH]; intros s H; [exact H|].
  rewrite iter_first. apply IH. unfold animate_frame.
  destruct (negb (paused s) && Qltb (current_time s) (t_max p));
    [apply update_physics_history|]; exact H.
Qed.

Lemma history_bounded_witness :
  history_ok (iter 3 (animate_frame setup_parameters) taut_state).
Proof.
  apply (history_bounded setup_parameters taut_state 3).
  unfold history_ok. simpl. lia.
Defined.

Lemma pop_if_long_last (th h : list Q) (b a : Q) :
  length h = length th ->
  List.last (pop_if_long (append th b) (append h a)) 0 = a.
Proof.
  intros E. unfold pop_if_long, append.
  destruct (Nat.ltb 500 (length (th ++ [b]))) eqn:El.
  - apply Nat.ltb_lt in El. rewrite length_app in El. simpl in El.
    destruct h as [|c h]; [simpl in E; lia|].
    cbn [app tl]. apply List.last_last.
  - apply List.last_last.
Qed.

(** The newest sample is the last entry of each history list, also when
    the oldest one has just been dropped. *)
Theorem history_newest_last p s :
  history_ok s ->
  List.last (time_history (update_physics p s)) 0
  = current_time (update_physics p s)
  /\ List.last (y1_history (update_physics p s)) 0 = y1 (update_physics p s)
  /\ List.last (y2_history (update_physics p s)) 0 = y2 (update_physics p s)
  /\ List.last (v1_history (update_physics p s)) 0 = v1 (update_physics p s)
  /\ List.last (v2_history (update_physics p s)) 0 = v2 (update_physics p s).
Proof.
  intros (_ & H1 & H2 & H3 & H4). unfold update_physics.
  cbn [time_history y1_history y2_history v1_history v2_history
       current_time y1 y2 v1 v2].
  repeat split; apply pop_if_long_last; congruence.
Qed.

Lemma history_newest_last_witness :
  List.last (time_history (update_physics setup_parameters taut_state)) 0
  = current_time (update_physics setup_parameters taut_state)
  /\ List.last (y1_history (update_physics setup_parameters taut_state)) 0
     = y1 (update_physics setup_parameters taut_state).
Proof.
  assert (H : history_ok taut_state) by (unfold history_ok; simpl; lia).
  destruct (history_newest_last setup_parameters taut_state H)
    as (A & B & _).
  split; [exact A | exact B].
Defined.

(** The clock never passes [t_max] by a full step, and never runs back. *)
Theorem clock_stops p s n :
  0 <= dt p ->
  current_time s < t_max p + dt p ->
  current_time (iter n (animate_frame p) s) < t_max p + dt p
  /\ current_time s <= current_time (iter n (animate_frame p) s).
Proof.
  intros Hdt. revert s. induction n as [|n IH]; intros s H.
  - simpl iter. split; [exact H | lra].
  - rewrite iter_first.
    assert (Hs : current_time (animate_frame p s) < t_max p + dt p
                 /\ current_time s <= current_time (animate_frame p s)).
    { unfold animate_frame.
      destruct (negb (paused s)); cbn [andb]; [|split; [exact H | lra]].
      destruct (Qltb (current_time s) (t_max p)) eqn:E;
        [|split; [exact H | lra]].
      apply Qltb_true in E. unfold update_physics. cbn [current_time].
      split; lra. }
    destruct Hs as [Hs1 Hs2]. destruct (IH _ Hs1) as [A B].
    split; [exact A | lra].
Qed.

Lemma clock_stops_witness :
  current_time (run setup_parameters 3) < 10 + (2 # 100)
  /\ 0 <= current_time (run setup_parameters 3).
Proof.
  apply (clock_stops setup_parameters
           (reset_simulation setup_parameters false) 3).
  - vm_compute. discriminate.
  - vm_compute. reflexivity.
Defined.

End AtwoodMachineInvariants.

(** ** Further properties of the rotation engines *)

Module RotationInvariants.

(** For one mass and radius the rod has the largest moment of inertia and
    the sphere the smallest, as the info panel says. *)
Theorem rod_has_largest_inertia p o :
  0 <= mass p ->
  inertia (update_type p Sphere) <= inertia (update_type p o)
  /\ inertia (update_type p o) <= inertia (update_type p Rod)
  /\ inertia (update_type p Rod) == (4 # 3) * mass p * radius p ^ 2.
Proof.
  intros Hm. unfold inertia, update_type, I_factor.
  cbn [current_type mass radius].
  change (radius p ^ 2) with (radius p * radius p).
  change ((2 * radius p) ^ 2) with ((2 * radius p) * (2 * radius p)).
  change (1 / 3) with (1 # 3).
  assert (Hr : 0 <= mass p * (radius p * radius p)).
  { apply Qmult_le_0_compat; [exact Hm|].
    destruct (Qlt_le_dec (radius p) 0) as [H|H]; nra. }
  split; [|split; [|ring]]; destruct o; nra.
Qed.

Lemma rod_has_largest_inertia_witness :
  inertia (update_type rotation_setup_parameters Sphere)
  <= inertia (update_type rotation_setup_parameters Ring)
  /\ inertia (update_type rotation_setup_parameters Ring)
     <= inertia (update_type rotation_setup_parameters Rod).
Proof.
  assert (Hm : 0 <= mass rotation_setup_parameters)
    by (vm_compute; discriminate).
  destruct (rod_has_largest_inertia rotation_setup_parameters Ring Hm)
    as (A & B & _).
  split; [exact A | exact B].
Defined.

Lemma inertia_pos p : 0 < mass p -> ~ radius p == 0 -> 0 < inertia p.
Proof.
  intros Hm Hr.
  assert (Hsq : 0 < radius p * radius p).
  { destruct (Qlt_le_dec (radius p) 0) as [H|H]; [nra|].
    assert (0 < radius p) by (apply Qle_lteq in H; destruct H; [assumption|];
                              exfalso; apply Hr; symmetry; assumption).
    nra. }
  assert (Hk : 0 < mass p * (radius p * radius p)) by nra.
  unfold inertia, I_factor.
  change (radius p ^ 2) with (radius p * radius p).
  change ((2 * radius p) ^ 2) with ((2 * radius p) * (2 * radius p)).
  change (1 / 3) with (1 # 3).
  destruct (current_type p); nra.
Qed.

(** With a positive mass and a non-zero radius the two files reset to the
    same state; the guard of free_fall_simulation.py only matters for a
    moment of inertia that is not positive, where it sets [alpha] to 0. *)
Theorem resets_agree p b :
  (0 < mass p -> ~ radius p == 0 ->
   FreeFallSimulation.reset_simulation p b
   = RigidBodyRotation.reset_simulation p b)
  /\ (inertia p <= 0 -> alpha (FreeFallSimulation.reset_simulation p b) = 0).
Proof.
  unfold FreeFallSimulation.reset_simulation,
    RigidBodyRotation.reset_simulation.
  split.
  - intros Hm Hr. pose proof (inertia_pos p Hm Hr) as H.
    apply Qltb_true in H. rewrite H. reflexivity.
  - intros H. apply Qltb_false in H. cbn [alpha]. rewrite H. reflexivity.
Qed.

Lemma resets_agree_witness :
  FreeFallSimulation.reset_simulation rotation_setup_parameters false
  = RigidBodyRotation.reset_simulation rotation_setup_parameters false.
Proof.
  apply (resets_agree rotation_setup_parameters false).
  - vm_compute. reflexivity.
  - vm_compute. discriminate.
Defined.

(** The wrap of free_fall_simulation.py removes whole turns only: the
    stored angle differs from the computed one by [k] times [2 * np.pi],
    with [k = 0] when nothing is wrapped and [k >= 2] otherwise. *)
Theorem wrap_removes_whole_turns th :
  exists k : Z,
    FreeFallSimulation.wrap th == th - inject_Z k * (2 * np_pi)
    /\ (k = 0 \/ 2 <= k)%Z.
Proof.
  unfold FreeFallSimulation.wrap.
  destruct (Qltb (4 * np_pi) th) eqn:E.
  - exists (Qfloor (th / (2 * np_pi))). split; [unfold py_mod; ring|].
    right. apply Qltb_true in E.
    assert (H : inject_Z 2 <= th / (2 * np_pi)).
    { apply Qle_shift_div_l; [reflexivity|].
      change (inject_Z 2) with 2. lra. }
    apply Qfloor_resp_le in H. rewrite Qfloor_Z in H. exact H.
  - exists 0%Z. split; [|left; reflexivity].
    change (inject_Z 0) with 0. ring.
Qed.

(** From a reset with a non-negative torque the sibling engine keeps a
    non-negative angular velocity and an angle between 0 and 4 pi. *)
Theorem sibling_angle_bounded p b n :
  0 <= dt p -> 0 <= torque p ->
  let s := iter n (FreeFallSimulation.animate_frame p)
             (FreeFallSimulation.reset_simulation p b) in
  0 <= alpha s /\ 0 <= omega s /\ 0 <= theta s <= 4 * np_pi.
Proof.
  intros Hdt Htq s. subst s.
  assert (Hpi := RotationSpec.np_pi_pos).
  induction n as [|n IH].
  - simpl iter. unfold FreeFallSimulation.reset_simulation.
    cbn [alpha omega theta]. repeat split; try lra.
    destruct (Qltb 0 (inertia p)) eqn:E; [|lra].
    apply Qltb_true in E. apply Qle_shift_div_l; [exact E|]. lra.
  - rewrite iter_last.
    set (s := iter n _ _) in *. destruct IH as (Ha & Ho & Ht1 & Ht2).
    unfold FreeFallSimulation.animate_frame.
    destruct (negb (paused s) && Qltb (current_time s) (t_max p));
      [|repeat split; assumption].
    unfold FreeFallSimulation.update_physics. cbn [alpha omega theta].
    assert (Hadt : 0 <= alpha s * dt p)
      by (apply Qmult_le_0_compat; assumption).
    assert (Ho' : 0 <= omega s + alpha s * dt p) by lra.
    assert (Hraw : 0 <= theta s + (omega s + alpha s * dt p) * dt p).
    { assert (0 <= (omega s + alpha s * dt p) * dt p)
        by (apply Qmult_le_0_compat; assumption). lra. }
    destruct (RotationSpec.wrap_spec
                (theta s + (omega s + alpha s * dt p) * dt p))
      as (W1 & W2 & W3).
    split; [exact Ha|]. split; [exact Ho'|]. split; [|exact W3].
    destruct (Qlt_le_dec (4 * np_pi)
                (theta s + (omega s + alpha s * dt p) * dt p)) as [H|H].
    + apply (W1 H).
    + rewrite (W2 H). exact Hraw.
Qed.

Lemma sibling_angle_bounded_witness :
  0 <= theta (FreeFallSimulation.run spin_parameters 3) <= 4 * np_pi.
Proof.
  apply (sibling_angle_bounded spin_parameters false 3).
  - vm_compute. discriminate.
  - vm_compute. discriminate.
Defined.

Lemma update_physics_running p s :
  paused s = false -> current_time s < t_max p ->
  let s' := RigidBodyRotation.update_physics p s in
  omega s' = omega s + alpha s * dt p
  /\ theta s' = theta s + (omega s + alpha s * dt p) * dt p
  /\ current_time s' = current_time s + dt p
  /\ alpha s' = alpha s /\ paused s' = false.
Proof.
  intros Hp Ht. apply Qltb_true in Ht.
  unfold RigidBodyRotation.update_physics. rewrite Hp, Ht.
  cbn [negb andb omega theta current_time alpha paused].
  repeat split.
Qed.

(** While the clock is below [t_max], the engine of
    rigid_body_rotation.py follows the explicit Euler sums of a constant
    angular acceleration: after [n] frames from a reset,
    [omega = n alpha dt], [theta = alpha dt^2 n (n + 1) / 2] and
    [t = n dt]. *)
Theorem rotation_closed_form p n :
  0 < dt p ->
  inject_Z (Z.of_nat n) * dt p <= t_max p ->
  let s := RigidBodyRotation.run p n in
  let a := torque p / inertia p in
  omega s == inject_Z (Z.of_nat n) * (a * dt p)
  /\ theta s
     == a * dt p * dt p
        * (inject_Z (Z.of_nat n) * (inject_Z (Z.of_nat n) + 1)) / 2
  /\ current_time s == inject_Z (Z.of_nat n) * dt p
  /\ alpha s = a /\ paused s = false.
Proof.
  intros Hdt. unfold RigidBodyRotation.run. cbv zeta.
  remember (torque p / inertia p) as a eqn:Ea.
  induction n as [|n IH]; intros Hn.
  - simpl iter. cbn [RigidBodyRotation.reset_simulation
                       omega theta current_time alpha paused].
    change (inject_Z (Z.of_nat 0)) with 0.
    repeat split; try (symmetry; exact Ea); field.
  - rewrite inject_nat_succ in Hn.
    assert (Hn0 : 0 <= inject_Z (Z.of_nat n)).
    { change 0 with (inject_Z 0). rewrite <- Zle_Qle. lia. }
    assert (Hn' : inject_Z (Z.of_nat n) * dt p <= t_max p) by nra.
    destruct (IH Hn') as (Ho & Hth & Hct & Ha & Hp).
    rewrite iter_last. set (s := iter n _ _) in *.
    assert (Hlt : current_time s < t_max p) by (rewrite Hct; nra).
    destruct (update_physics_running p s Hp Hlt) as (E1 & E2 & E3 & E4 & E5).
    rewrite E1, E2, E3, E4, E5, Ha, Ho, Hth, Hct, !inject_nat_succ.
    repeat split; try reflexivity; field.
Qed.

Lemma rotation_closed_form_witness :
  omega (RigidBodyRotation.run rotation_setup_parameters 5)
  == inject_Z (Z.of_nat 5) * (1 / inertia rotation_setup_parameters * (2 # 100))
  /\ current_time (RigidBodyRotation.run rotation_setup_parameters 5)
     == inject_Z (Z.of_nat 5) * (2 # 100).
Proof.
  assert (Hdt : 0 < dt rotation_setup_parameters) by reflexivity.
  assert (Hn : inject_Z (Z.of_nat 5) * dt rotation_setup_parameters
               <= t_max rotation_setup_parameters)
    by (vm_compute; discriminate).
  destruct (rotation_closed_form rotation_setup_parameters 5 Hdt Hn)
    as (A & _ & C & _).
  split; [exact A | exact C].
Defined.

Lemma rotation_update_history p s :
  rotation_history_ok s ->
  rotation_history_ok (RigidBodyRotation.update_physics p s)
  /\ rotation_history_ok (FreeFallSimulation.animate_frame p s).
Proof.
  intros H. pose proof H as (Hb & H1 & H2 & H3).
  unfold RigidBodyRotation.update_physics, FreeFallSimulation.animate_frame.
  destruct (negb (paused s) && Qltb (current_time s) (t_max p));
    [|split; exact H].
  unfold rotation_history_ok, FreeFallSimulation.update_physics.
  cbn [time_history theta_history omega_history alpha_history].
  split; (split; [apply pop_if_long_bound, Hb|]);
    repeat split; apply pop_if_long_length; rewrite !append_length;
    congruence.
Qed.

(** In both rotation engines the four history lists keep one common length
    of at most 500 samples, however many frames are played. *)
Theorem rotation_history_bounded p s n :
  rotation_history_ok s ->
  rotation_history_ok (iter n (RigidBodyRotation.animate_frame p) s)
  /\ rotation_history_ok (iter n (FreeFallSimulation.animate_frame p) s).
Proof.
  revert s. induction n as [|n IH]; intros s H; [split; exact H|].
  rewrite !iter_first.
  destruct (rotation_update_history p s H) as [A B].
  split; [apply (IH _ A) | apply (IH _ B)].
Qed.

Lemma rotation_history_bounded_witness :
  rotation_history_ok (RigidBodyRotation.run rotation_setup_parameters 3).
Proof.
  apply (rotation_history_bounded rotation_setup_parameters
           (RigidBodyRotation.reset_simulation rotation_setup_parameters false)
           3).
  unfold rotation_history_ok. simpl. lia.
Defined.

End RotationInvariants.

(** ** Further properties of the line utility *)

Module LineDrawerInvariants.
Import LineDrawer.

(** [move_line] shifts both end points and the stored offset by the same
    vector and keeps the displacement between the end points; without a
    line only the offset moves. *)
Theorem move_line_translates d dx dy :
  line_offset (move_line d dx dy)
  = (fst (line_offset d) + dx, snd (line_offset d) + dy)
  /\ x (move_line d dx dy) = x d /\ y (move_line d dx dy) = y d
  /\ snap_target_index (move_line d dx dy) = snap_target_index d
  /\ match line d, line (move_line d dx dy) with
     | Some l, Some l' =>
         fst (direction l') == fst (direction l)
         /\ snd (direction l') == snd (direction l)
         /\ fst (midpoint l') == fst (midpoint l) + dx
         /\ snd (midpoint l') == snd (midpoint l) + dy
     | None, None => True
     | _, _ => False
     end.
Proof.
  unfold move_line. destruct (line d) as [l|];
    cbn [line_offset x y snap_target_index line set_line].
  - repeat split; unfold direction, midpoint; cbn [xdata ydata fst snd];
      field.
  - repeat split.
Qed.

(** Moving by a vector and then by its opposite gives the line and the
    offset back. *)
Theorem move_line_back d l dx dy :
  line d = Some l ->
  exists l',
    line (move_line (move_line d dx dy) (- dx) (- dy)) = Some l'
    /\ line_eq l' l
    /\ fst (line_offset (move_line (move_line d dx dy) (- dx) (- dy)))
       == fst (line_offset d)
    /\ snd (line_offset (move_line (move_line d dx dy) (- dx) (- dy)))
       == snd (line_offset d).
Proof.
  intros Hl. unfold move_line. rewrite Hl. cbn [line set_line].
  eexists. split; [reflexivity|].
  unfold line_eq. cbn [xdata ydata fst snd line_offset set_line].
  repeat split; ring.
Qed.

Lemma move_line_back_witness :
  exists l',
    line (move_line (move_line parabola_drawer (1 # 10000) 0)
            (- (1 # 10000)) (- 0)) = Some l'
    /\ line_eq l' parabola_line.
Proof.
  destruct (move_line_back parabola_drawer parabola_line (1 # 10000) 0
              eq_refl) as (l' & A & B & _).
  exists l'. split; [exact A | exact B].
Defined.

(** Snapping a second time moves nothing: the line is already centred on
    the target. *)
Theorem snap_idempotent d d1 l1 :
  snap d = Done d1 -> line d1 = Some l1 ->
  exists d2 l2,
    snap d1 = Done d2 /\ line d2 = Some l2 /\ line_eq l2 l1
    /\ fst (line_offset d2) == fst (line_offset d1)
    /\ snd (line_offset d2) == snd (line_offset d1).
Proof.
  unfold snap. destruct (line d) as [l|] eqn:Hl.
  - destruct (nth_error (x d) (snap_target_index d)) as [xt|] eqn:Hx;
      [|discriminate].
    destruct (nth_error (y d) (snap_target_index d)) as [yt|] eqn:Hy;
      [|discriminate].
    intros E. injection E as <-. cbn [line set_line]. intros E.
    injection E as <-.
    cbn [x y snap_target_index set_line line]. rewrite Hx, Hy.
    eexists _, _. split; [reflexivity|]. split; [reflexivity|].
    unfold line_eq. cbn [xdata ydata fst snd line_offset set_line].
    repeat split; field.
  - intros E. injection E as <-. congruence.
Qed.

Lemma snap_idempotent_witness :
  exists d1 l1 d2 l2,
    snap parabola_drawer = Done d1 /\ line d1 = Some l1
    /\ snap d1 = Done d2 /\ line d2 = Some l2 /\ line_eq l2 l1.
Proof.
  destruct (snap_idempotent parabola_drawer _ _ eq_refl eq_refl)
    as (d2 & l2 & A & B & C & _).
  eexists _, _, d2, l2.
  split; [reflexivity|]. split; [reflexivity|]. split; [exact A|].
  split; [exact B | exact C].
Defined.

(** Without a line [snap] and [trim] change nothing; with a line, [snap]
    raises [IndexError] exactly when the snap index lies beyond the curve,
    as it does for the start index 100 over a curve of at most 100
    samples. *)
Theorem snap_index_error d :
  length (x d) = length (y d) ->
  (line d = None -> snap d = Done d /\ trim d = Done d)
  /\ (line d <> None ->
      (snap d = Raise IndexError
       <-> (length (x d) <= snap_target_index d)%nat))
  /\ (forall xs ys dx dy,
        snap_target_index (move_line (init xs ys) dx dy) = 100%nat).
Proof.
  intros Hlen. unfold snap, trim. split; [|split].
  - intros H. rewrite H. split; reflexivity.
  - intros H. destruct (line d) as [l|]; [clear H|congruence].
    destruct (nth_error (x d) (snap_target_index d)) as [xt|] eqn:Hx.
    + assert (Hi : (snap_target_index d < length (x d))%nat)
        by (apply nth_error_Some; congruence).
      destruct (nth_error (y d) (snap_target_index d)) as [yt|] eqn:Hy.
      * split; [discriminate | lia].
      * apply nth_error_None in Hy. lia.
    + apply nth_error_None in Hx. split; [intros _; exact Hx | reflexivity].
  - reflexivity.
Qed.

Lemma snap_index_error_witness :
  snap (init [0; 1] [0; 1]) = Done (init [0; 1] [0; 1])
  /\ (snap parabola_drawer = Raise IndexError <-> (5 <= 3)%nat).
Proof.
  split.
  - apply (snap_index_error (init [0; 1] [0; 1]) eq_refl). reflexivity.
  - apply (snap_index_error parabola_drawer eq_refl). discriminate.
Defined.

(** With a line over a curve of fewer than two samples [trim] fails on
    unpacking the two indices. *)
Theorem trim_needs_two_samples d l :
  line d = Some l ->
  length (x d) = length (y d) ->
  (length (x d) < 2)%nat ->
  trim d = Raise ValueError.
Proof.
  intros Hl _ Hn. unfold trim. rewrite Hl.
  set (ds := dists2 l (x d) (y d)).
  assert (Hds : (length ds < 2)%nat).
  { unfold ds, dists2. rewrite length_map, length_combine. lia. }
  pose proof (Permutation_length (LineDrawerSpec.argsort_perm ds)) as Hp.
  rewrite length_seq in Hp.
  destruct (argsort ds) as [|a [|b rest]]; simpl in Hp; try reflexivity.
  lia.
Qed.

Lemma trim_needs_two_samples_witness :
  trim (set_line (init [1] [1]) parabola_line (0, 0)) = Raise ValueError.
Proof.
  apply (trim_needs_two_samples _ parabola_line).
  - reflexivity.
  - reflexivity.
  - simpl. lia.
Defined.

(** *** [update_snap_index] *)

Lemma argmin_from_spec (l : list Q) :
  forall (full pre : list Q) (best_i : nat) (best : Q),
    full = pre ++ l ->
    (best_i < length pre)%nat ->
    nth best_i full 0 = best ->
    (forall j, (j < length pre)%nat -> best <= nth j full 0) ->
    (forall j, (j < best_i)%nat -> best < nth j full 0) ->
    let r := argmin_from best_i best (length pre) l in
    (r < length full)%nat
    /\ (forall j, (j < length full)%nat -> nth r full 0 <= nth j full 0)
    /\ (forall j, (j < r)%nat -> nth r full 0 < nth j full 0).
Proof.
  induction l as [|a l IH]; intros full pre best_i best Hf Hi Hb Hle Hlt.
  - cbn [argmin_from]. rewrite app_nil_r in Hf. subst full.
    rewrite Hb. repeat split; [exact Hi | exact Hle | exact Hlt].
  - cbn [argmin_from].
    assert (Hf' : full = (pre ++ [a]) ++ l)
      by (rewrite <- app_assoc; exact Hf).
    assert (Hlen : length (pre ++ [a]) = S (length pre))
      by (rewrite length_app; simpl; lia).
    assert (Ha : nth (length pre) full 0 = a).
    { rewrite Hf, app_nth2 by lia. rewrite Nat.sub_diag. reflexivity. }
    destruct (Qltb a best) eqn:E.
    + apply Qltb_true in E. rewrite <- Hlen.
      apply (IH full (pre ++ [a]) (length pre) a Hf').
      * lia.
      * exact Ha.
      * intros j Hj. rewrite Hlen in Hj.
        destruct (Nat.eq_dec j (length pre)) as [->|Hne];
          [rewrite Ha; lra|].
        assert (best <= nth j full 0) by (apply Hle; lia). lra.
      * intros j Hj. assert (best <= nth j full 0) by (apply Hle; lia). lra.
    + apply Qltb_false in E. rewrite <- Hlen.
      apply (IH full (pre ++ [a]) best_i best Hf').
      * lia.
      * exact Hb.
      * intros j Hj. rewrite Hlen in Hj.
        destruct (Nat.eq_dec j (length pre)) as [->|Hne];
          [rewrite Ha; exact E|].
        apply Hle. lia.
      * exact Hlt.
Qed.




Lemma update_snap_index_in_range d x_val d' :
  x d <> [] ->
  update_snap_index d (Done x_val) = Done d' ->
  x d' = x d /\ y d' = y d
  /\ (snap_target_index d' < length (x d))%nat.
Proof.
  intros Hne. unfold update_snap_index.
  destruct (x d) as [|a xs] eqn:Hx; [congruence|]. clear Hne.
  set (f := fun c => Qabs (c - x_val)). cbn [map argmin].
  destruct (argmin_from_spec (map f xs) (map f (a :: xs)) [f a] 0 (f a))
    as (R1 & _); try reflexivity.
  { simpl. lia. }
  { intros j Hj. simpl in Hj. assert (j = 0)%nat by lia. subst j.
    simpl. lra. }
  { intros j Hj. lia. }
  cbn [length] in R1. rewrite length_map in R1.
  intros E. injection E as <-. cbn [x y snap_target_index].
  repeat split; exact R1.
Qed.

(** Over a non-empty curve whose two arrays have one length: after
    [update_snap_index] on a text that parses to a number, [snap] cannot
    fail; a text that is not numeric leaves the drawer as it was, the snap
    index included. *)
Theorem snap_after_update_snap_index d parsed d' :
  x d <> [] ->
  length (x d) = length (y d) ->
  update_snap_index d parsed = Done d' ->
  match parsed with
  | Done _ => exists d'', snap d' = Done d''
  | Raise _ => d' = d
  end.
Proof.
  intros Hne Hlen Hu. destruct parsed as [x_val|e].
  - destruct (update_snap_index_in_range d x_val d' Hne Hu)
      as (Hx1 & Hy1 & Hi).
    unfold snap. destruct (line d'); [|eauto].
    destruct (nth_error (x d') (snap_target_index d')) eqn:Ex;
      [|apply nth_error_None in Ex; rewrite Hx1 in Ex; lia].
    destruct (nth_error (y d') (snap_target_index d')) eqn:Ey; [eauto|].
    apply nth_error_None in Ey. rewrite Hy1 in Ey. lia.
  - destruct e; cbn [update_snap_index] in Hu; [discriminate|].
    injection Hu as <-. reflexivity.
Qed.

Lemma snap_after_update_snap_index_witness :
  exists d' d'',
    update_snap_index parabola_drawer (Done (7 # 10)) = Done d'
    /\ snap d' = Done d''.
Proof.
  assert (Hne : x parabola_drawer <> []) by discriminate.
  destruct (snap_after_update_snap_index parabola_drawer (Done (7 # 10)) _
              Hne eq_refl eq_refl) as (d'' & B).
  eexists _, d''. split; [reflexivity | exact B].
Defined.

(** Why the text has to be numeric: a drawer still on the start index 100
    over five samples keeps that index when the text does not parse, and
    [snap] then raises. *)
Lemma snap_after_failed_parse :
  update_snap_index stale_drawer (Raise ValueError) = Done stale_drawer
  /\ snap stale_drawer = Raise IndexError.
Proof. split; reflexivity. Qed.

Lemma clip01_fixed t c : t == c -> 0 <= c <= 1 -> clip01 t == c.
Proof.
  intros E [H0 H1]. unfold clip01.
  destruct (Q.max_spec t 0) as [[Ht Hm]|[Ht Hm]];
    destruct (Q.min_spec 1 (Qmax t 0)) as [[Hl Hn]|[Hl Hn]];
    rewrite Hn; try rewrite Hm; rewrite ?Hm in Hl; lra.
Qed.

(** For a segment of non-zero length the squared distance to the segment
    is never negative, and it is 0 at both end points. *)
Theorem point_line_dist2_end_points l xp yp :
  ~ length2 l == 0 ->
  0 <= point_line_dist2 l xp yp
  /\ point_line_dist2 l (fst (xdata l)) (fst (ydata l)) == 0
  /\ point_line_dist2 l (snd (xdata l)) (snd (ydata l)) == 0.
Proof.
  unfold point_line_dist2, length2, direction. cbv zeta.
  destruct l as [[x0 x1] [y0 y1]]. cbn [xdata ydata fst snd].
  intros Hn. split; [|split].
  - set (u := xp - _). set (v := yp - _).
    change (u ^ 2) with (u * u). change (v ^ 2) with (v * v). nra.
  - assert (E : ((x0 - x0) * (x1 - x0) + (y0 - y0) * (y1 - y0))
                / ((x1 - x0) ^ 2 + (y1 - y0) ^ 2) == 0).
    { unfold Qdiv. ring. }
    rewrite (clip01_fixed _ 0 E) by (split; discriminate). ring.
  - assert (E : ((x1 - x0) * (x1 - x0) + (y1 - y0) * (y1 - y0))
                / ((x1 - x0) ^ 2 + (y1 - y0) ^ 2) == 1)
      by (field; exact Hn).
    rewrite (clip01_fixed _ 1 E) by (split; discriminate). ring.
Qed.

Lemma point_line_dist2_end_points_witness :
  0 <= point_line_dist2 parabola_line 0 0
  /\ point_line_dist2 parabola_line (-(1)) 2 == 0
  /\ point_line_dist2 parabola_line 3 4 == 0.
Proof.
  apply (point_line_dist2_end_points parabola_line 0 0).
  vm_compute. discriminate.
Defined.

End LineDrawerInvariants.

(** ** Further properties of the parameter submission *)

Module SHOInvariants.
Import SHO.

(** The four checked keys have positive defaults. *)
Lemma default_positive k : requires_positive k = true -> 0 < default_of k.
Proof.
  unfold requires_positive. intros H. apply bool_decide_eq_true in H.
  repeat (apply elem_of_cons in H; destruct H as [->|H]; [reflexivity|]).
  apply elem_of_nil in H. destruct H.
Qed.

(** What [submit] stores for a checked key is positive. *)
Lemma accepted_positive k v : requires_positive k = true -> 0 < accepted k v.
Proof.
  intros Hk. unfold accepted, invalid. rewrite Hk. cbn [andb].
  destruct (Qleb v 0) eqn:E; [apply default_positive, Hk|].
  apply Qleb_false in E. exact E.
Qed.

Lemma accepted_idempotent k v : accepted k (accepted k v) = accepted k v.
Proof.
  unfold accepted at 1. destruct (invalid k (accepted k v)) eqn:E;
    [|reflexivity].
  unfold invalid in E. apply andb_true_iff in E. destruct E as [Hk E].
  apply Qleb_true in E. pose proof (accepted_positive k v Hk). lra.
Qed.

(** An entry of [params] whose key no slider carries is left as it is. *)
Theorem submit_keeps_other_params s k :
  k ∉ map fst (sliders s) -> params (submit s) !! k = params s !! k.
Proof. intros H. apply SHOSpec.submit_fields_other, H. Qed.

Lemma submit_keeps_other_params_witness :
  params (submit {| sliders := [("Mass", 3)]; params := defaults |}) !! "FPS"
  = Some 60.
Proof.
  rewrite (submit_keeps_other_params
             {| sliders := [("Mass", 3)]; params := defaults |} "FPS").
  - reflexivity.
  - cbn [sliders map fst]. intros H. apply elem_of_cons in H.
    destruct H as [H|H]; [discriminate|]. apply elem_of_nil in H. exact H.
Defined.

(** After [submit] every submitted Mass, Spring Constant, Duration and FPS
    entry of [params] is strictly positive, so [compute_shm] never divides
    by a zero mass. *)
Theorem submit_makes_positive s k v :
  NoDup (map fst (sliders s)) ->
  (k, v) ∈ sliders s ->
  requires_positive k = true ->
  exists v', params (submit s) !! k = Some v' /\ 0 < v'.
Proof.
  intros Hnd Hin Hk. exists (accepted k v). split.
  - apply (SHOSpec.submit_fields_lookup _ _ k v Hnd Hin).
  - apply accepted_positive, Hk.
Qed.

Lemma submit_makes_positive_witness :
  exists v', params (submit mixed_batch) !! "Mass" = Some v' /\ 0 < v'.
Proof.
  apply (submit_makes_positive mixed_batch "Mass" (-(2))).
  - apply (bool_decide_unpack _). vm_compute. exact I.
  - constructor. constructor.
  - reflexivity.
Defined.

(** After [submit] the sliders show exactly what [params] holds. *)
Theorem sliders_agree_with_params s k v' :
  NoDup (map fst (sliders s)) ->
  (k, v') ∈ sliders (submit s) ->
  params (submit s) !! k = Some v'.
Proof.
  intros Hnd Hin. unfold submit in *. cbn [sliders params] in *.
  apply list_elem_of_fmap in Hin. destruct Hin as ([k0 v] & E & Hin).
  cbn [fst snd] in E. injection E as -> ->.
  apply (SHOSpec.submit_fields_lookup _ _ k0 v Hnd Hin).
Qed.

Lemma sliders_agree_with_params_witness :
  params (submit mixed_batch) !! "Mass" = Some 1.
Proof.
  apply (sliders_agree_with_params mixed_batch "Mass" 1).
  - apply (bool_decide_unpack _). vm_compute. exact I.
  - cbn. constructor. constructor.
Defined.

Lemma submit_fields_same (l : list (string * Q)) (m : gmap string Q) :
  (forall k v, (k, v) ∈ l -> m !! k = Some (accepted k v)) ->
  fold_left submit_field l m = m.
Proof.
  induction l as [|[k v] l IH]; intros H; [reflexivity|].
  cbn [fold_left]. unfold submit_field at 2. cbn [fst snd].
  rewrite insert_id by (apply H; constructor).
  apply IH. intros k' v' Hin. apply H. constructor. exact Hin.
Qed.

Lemma simulator_eq a b :
  sliders a = sliders b -> params a = params b -> a = b.
Proof. destruct a, b. cbn. intros -> ->. reflexivity. Qed.

(** Submitting twice is the same as submitting once. *)
Theorem submit_idempotent s :
  NoDup (map fst (sliders s)) -> submit (submit s) = submit s.
Proof.
  intros Hnd. apply simulator_eq.
  - unfold submit. cbn [sliders]. rewrite map_map. cbn [fst snd].
    apply map_ext. intros [k v]. cbn [fst snd].
    rewrite accepted_idempotent. reflexivity.
  - unfold submit at 1. cbn [params].
    apply submit_fields_same. intros k v' Hin.
    unfold submit in *. cbn [sliders params] in *.
    apply list_elem_of_fmap in Hin. destruct Hin as ([k0 v] & E & Hin).
    cbn [fst snd] in E. injection E as -> ->.
    rewrite (SHOSpec.submit_fields_lookup _ _ k0 v Hnd Hin).
    rewrite accepted_idempotent. reflexivity.
Qed.

Lemma submit_idempotent_witness :
  submit (submit mixed_batch) = submit mixed_batch.
Proof.
  apply (submit_idempotent mixed_batch).
  apply (bool_decide_unpack _). vm_compute. exact I.
Defined.

End SHOInvariants.

(** ** Projectile heights *)

Module ProjectileMotionSpec.
Import ProjectileMotion.

(** No height of the trajectory exceeds [max_height], and the height at
    time [v0y / g] is [max_height]. *)
Theorem max_height_is_maximum l t :
  0 < g l ->
  y_at l t <= max_height l /\ y_at l (v0y l / g l) == max_height l.
Proof.
  intros Hg. unfold y_at, max_height.
  assert (Hne : ~ g l == 0) by lra.
  split; [|field; exact Hne].
  assert (E : h0 l + v0y l ^ 2 / (2 * g l)
              - (h0 l + v0y l * t - (5 # 10) * g l * t ^ 2)
              == (g l * t - v0y l) * (g l * t - v0y l) / (2 * g l))
    by (field; exact Hne).
  assert (Hsq : 0 <= (g l * t - v0y l) * (g l * t - v0y l)).
  { set (u := g l * t - v0y l).
    destruct (Qlt_le_dec u 0) as [H|H]; nra. }
  assert (Hq : 0 <= (g l * t - v0y l) * (g l * t - v0y l) / (2 * g l)).
  { apply Qle_shift_div_l; lra. }
  lra.
Qed.

Lemma max_height_is_maximum_witness :
  y_at {| g := 981 # 100; v0y := 10; h0 := 2 |} 1
  <= max_height {| g := 981 # 100; v0y := 10; h0 := 2 |}.
Proof.
  apply (max_height_is_maximum {| g := 981 # 100; v0y := 10; h0 := 2 |} 1).
  reflexivity.
Defined.

End ProjectileMotionSpec.

(** ** The button grid of the home screen *)

Module HomeScreenSpec.
Import HomeScreen.



End HomeScreenSpec.
